(** * DyCrypt: cascade encryption and the [.dy] container

    A shallow embedding of the TypeScript sources of DyCrypt
    ([src/DyCrypt.ts], [src/utils/packData.ts], [src/utils/unpackData.ts],
    [src/types.ts] and the pack/unpack pipeline of the command line
    example), followed by the properties of the design document that can
    be stated over it and by what the code shows beyond them: its
    failures, its edge cases and how its operations compose.

    Conventions of the embedding:
    - a Node [Buffer] is a [list Byte.byte]; the code never writes to a
      buffer after it has handed it out, so value semantics is enough
      (the views returned by [subarray] alias their parent, which nobody
      mutates afterwards);
    - a JavaScript [string] is its sequence of UTF-16 code units
      ([list N]), error messages are kept as Rocq [string]s;
    - [throw]/rejected promises are the [Throw] completion; an [async]
      method is its sequential body (every [await] is awaited at once);
    - calls into [node:crypto] are recorded in an event log so that the
      order of the layers can be observed. *)

From Stdlib Require Import NArith ZArith Lia.
From Stdlib.Strings Require Import Byte.
From stdpp Require Import base list strings pretty numbers.

(** ** Completions: a value or a thrown [Error] *)

Inductive JsError : Type :=
  | Error (message : string).

Inductive completion (A : Type) : Type :=
  | Return (a : A)
  | Throw (e : JsError).
Arguments Return {A} a.
Arguments Throw {A} e.

(** ** Buffers *)

Abbreviation Buffer := (list Byte.byte).

(** A JavaScript string, as its UTF-16 code units. *)
Abbreviation js_string := (list N).

Module Buffer.

(** [Buffer.allocUnsafe(size)]: [size] bytes of whatever the allocator's
    pool holds; [stale] is that previous content. *)
Definition allocUnsafe (stale : nat → Byte.byte) (size : nat) : Buffer :=
  stale <$> seq 0 size.

(** [source.copy(target, targetStart)]: overwrite [target] from
    [targetStart] on with the bytes of [source]; bytes that would fall
    behind the end of [target] are dropped, and nothing is written when
    [targetStart] is not inside [target]. *)
Definition copy (source target : Buffer) (targetStart : nat) : Buffer :=
  list_inserts targetStart source target.

(** [buf.subarray(start, end)], both indices clamped to the buffer. *)
Definition subarray (buf : Buffer) (start end_ : nat) : Buffer :=
  take (end_ - start) (drop start buf).

(** [buf.subarray(start)] *)
Definition subarray_from (buf : Buffer) (start : nat) : Buffer :=
  drop start buf.

(** [Buffer.concat([a, b])] *)
Definition concat (bufs : list Buffer) : Buffer := mjoin bufs.

End Buffer.

(** ** Bytes as numbers *)

Local Open Scope N_scope.

(** Storing a number into a byte keeps its low eight bits. *)
Definition byte_of_N (n : N) : Byte.byte :=
  match Byte.of_N (N.land n 0xFF) with Some b => b | None => x00 end.

Definition byte_xor (a b : Byte.byte) : Byte.byte :=
  byte_of_N (N.lxor (Byte.to_N a) (Byte.to_N b)).

(** ** Node's [utf-8] encoding of strings

    [Buffer.from(s, 'utf-8')] / [cipher.update(s, 'utf-8')] encode a string,
    [buf.toString('utf-8')] decodes one.  An unpaired surrogate is encoded
    as U+FFFD; an ill-formed byte sequence decodes to U+FFFD per maximal
    subpart (the WHATWG decoder). *)

Definition REPLACEMENT : N := 0xFFFD.

Definition is_high_surrogate (u : N) : bool := (0xD800 <=? u) && (u <=? 0xDBFF).
Definition is_low_surrogate (u : N) : bool := (0xDC00 <=? u) && (u <=? 0xDFFF).

(** Unicode scalar values: the code points that are not surrogates. *)
Definition is_scalar (cp : N) : Prop :=
  cp < 0xD800 ∨ (0xE000 ≤ cp ∧ cp < 0x110000).

(** A continuation byte [10xxxxxx] carrying the low six bits of [x]. *)
Definition cont_byte (x : N) : Byte.byte :=
  byte_of_N (N.lor 0x80 (N.land x 0x3F)).

Definition utf8_of_code_point (cp : N) : Buffer :=
  if cp <? 0x80 then [byte_of_N cp]
  else if cp <? 0x800 then
    [byte_of_N (N.lor 0xC0 (N.shiftr cp 6)); cont_byte cp]
  else if cp <? 0x10000 then
    [byte_of_N (N.lor 0xE0 (N.shiftr cp 12)); cont_byte (N.shiftr cp 6);
     cont_byte cp]
  else
    [byte_of_N (N.lor 0xF0 (N.shiftr cp 18)); cont_byte (N.shiftr cp 12);
     cont_byte (N.shiftr cp 6); cont_byte cp].

Fixpoint utf8_encode (s : js_string) : Buffer :=
  match s with
  | [] => []
  | u :: rest =>
      if is_high_surrogate u then
        match rest with
        | v :: rest' =>
            if is_low_surrogate v then
              utf8_of_code_point
                (0x10000 + N.shiftl (u - 0xD800) 10 + (v - 0xDC00))
                ++ utf8_encode rest'
            else utf8_of_code_point REPLACEMENT ++ utf8_encode rest
        | [] => utf8_of_code_point REPLACEMENT
        end
      else if is_low_surrogate u then
        utf8_of_code_point REPLACEMENT ++ utf8_encode rest
      else utf8_of_code_point u ++ utf8_encode rest
  end.

(** The decoder's state between two bytes. *)
Record utf8_state : Type := Utf8State {
  code_point : N;
  bytes_seen : N;
  bytes_needed : N;
  lower_boundary : N;
  upper_boundary : N
}.

Definition utf8_start : utf8_state := Utf8State 0 0 0 0x80 0xBF.

(** A byte read while no sequence is open. *)
Definition utf8_lead (b : N) : utf8_state * list N :=
  if b <=? 0x7F then (utf8_start, [b])
  else if (0xC2 <=? b) && (b <=? 0xDF) then
    (Utf8State (N.land b 0x1F) 0 1 0x80 0xBF, [])
  else if (0xE0 <=? b) && (b <=? 0xEF) then
    (Utf8State (N.land b 0xF) 0 2
       (if b =? 0xE0 then 0xA0 else 0x80)
       (if b =? 0xED then 0x9F else 0xBF), [])
  else if (0xF0 <=? b) && (b <=? 0xF4) then
    (Utf8State (N.land b 0x7) 0 3
       (if b =? 0xF0 then 0x90 else 0x80)
       (if b =? 0xF4 then 0x8F else 0xBF), [])
  else (utf8_start, [REPLACEMENT]).

Definition utf8_step (st : utf8_state) (b : N) : utf8_state * list N :=
  if bytes_needed st =? 0 then utf8_lead b
  else if negb ((lower_boundary st <=? b) && (b <=? upper_boundary st)) then
    let '(st', out) := utf8_lead b in (st', REPLACEMENT :: out)
  else
    let cp := N.lor (N.shiftl (code_point st) 6) (N.land b 0x3F) in
    if bytes_seen st + 1 =? bytes_needed st then (utf8_start, [cp])
    else (Utf8State cp (bytes_seen st + 1) (bytes_needed st) 0x80 0xBF, []).

Fixpoint utf8_feed (st : utf8_state) (bs : Buffer) : utf8_state * list N :=
  match bs with
  | [] => (st, [])
  | b :: rest =>
      let '(st1, out1) := utf8_step st (Byte.to_N b) in
      let '(st2, out2) := utf8_feed st1 rest in
      (st2, out1 ++ out2)
  end.

Definition utf8_flush (st : utf8_state) : list N :=
  if bytes_needed st =? 0 then [] else [REPLACEMENT].

Definition utf16_of_code_point (cp : N) : js_string :=
  if cp <? 0x10000 then [cp]
  else [0xD800 + N.land (N.shiftr (cp - 0x10000) 10) 0x3FF;
        0xDC00 + N.land cp 0x3FF].

Definition utf8_decode (bs : Buffer) : js_string :=
  let '(st, cps) := utf8_feed utf8_start bs in
  (cps ++ utf8_flush st) ≫= utf16_of_code_point.

(** [String.prototype.isWellFormed]: 16-bit code units, every surrogate
    paired. *)
Fixpoint isWellFormed (s : js_string) : bool :=
  match s with
  | [] => true
  | u :: rest =>
      if is_high_surrogate u then
        match rest with
        | v :: rest' => is_low_surrogate v && isWellFormed rest'
        | [] => false
        end
      else (u <? 0x10000) && negb (is_low_surrogate u) && isWellFormed rest
  end.

(** [String.prototype.toWellFormed]: every unpaired surrogate replaced by
    U+FFFD. *)
Fixpoint toWellFormed (s : js_string) : js_string :=
  match s with
  | [] => []
  | u :: rest =>
      if is_high_surrogate u then
        match rest with
        | v :: rest' =>
            if is_low_surrogate v then u :: v :: toWellFormed rest'
            else REPLACEMENT :: toWellFormed rest
        | [] => [REPLACEMENT]
        end
      else if is_low_surrogate u then REPLACEMENT :: toWellFormed rest
      else u :: toWellFormed rest
  end.

(** ** Node's [base64] encoding of buffers

    [buf.toString('base64')] is RFC 4648 with padding.
    [Buffer.from(s, 'base64')] reads both alphabets, skips any other
    character and stops at the first ['=']. *)

Definition PAD : N := 61.

Definition b64_char (v : N) : N :=
  if v <? 26 then 65 + v
  else if v <? 52 then 97 + (v - 26)
  else if v <? 62 then 48 + (v - 52)
  else if v =? 62 then 43
  else 47.

Definition b64_value (c : N) : option N :=
  if (65 <=? c) && (c <=? 90) then Some (c - 65)
  else if (97 <=? c) && (c <=? 122) then Some (c - 97 + 26)
  else if (48 <=? c) && (c <=? 57) then Some (c - 48 + 52)
  else if (c =? 43) || (c =? 45) then Some 62
  else if (c =? 47) || (c =? 95) then Some 63
  else None.

(** The four sextets of the 24-bit group [a b c]. *)
Definition b64_split (a b c : N) : list N :=
  [ N.shiftr a 2;
    N.lor (N.shiftl (N.land a 0x3) 4) (N.shiftr b 4);
    N.lor (N.shiftl (N.land b 0xF) 2) (N.shiftr c 6);
    N.land c 0x3F ].

Fixpoint base64_encode (bs : Buffer) : js_string :=
  match bs with
  | [] => []
  | [a] => (b64_char <$> take 2 (b64_split (Byte.to_N a) 0 0)) ++ [PAD; PAD]
  | [a; b] =>
      (b64_char <$> take 3 (b64_split (Byte.to_N a) (Byte.to_N b) 0)) ++ [PAD]
  | a :: b :: c :: rest =>
      (b64_char <$> b64_split (Byte.to_N a) (Byte.to_N b) (Byte.to_N c))
        ++ base64_encode rest
  end.

Fixpoint b64_sextets (s : js_string) : list N :=
  match s with
  | [] => []
  | c :: rest =>
      match b64_value c with
      | Some v => v :: b64_sextets rest
      | None => if c =? PAD then [] else b64_sextets rest
      end
  end.

Definition b64_join1 (s1 s2 : N) : Byte.byte :=
  byte_of_N (N.lor (N.shiftl s1 2) (N.shiftr s2 4)).
Definition b64_join2 (s2 s3 : N) : Byte.byte :=
  byte_of_N (N.lor (N.shiftl (N.land s2 0xF) 4) (N.shiftr s3 2)).
Definition b64_join3 (s3 s4 : N) : Byte.byte :=
  byte_of_N (N.lor (N.shiftl (N.land s3 0x3) 6) s4).

Fixpoint b64_bytes (v : list N) : Buffer :=
  match v with
  | s1 :: s2 :: s3 :: s4 :: rest =>
      b64_join1 s1 s2 :: b64_join2 s2 s3 :: b64_join3 s3 s4 :: b64_bytes rest
  | [s1; s2; s3] => [b64_join1 s1 s2; b64_join2 s2 s3]
  | [s1; s2] => [b64_join1 s1 s2]
  | _ => []
  end.

Definition base64_decode (s : js_string) : Buffer := b64_bytes (b64_sextets s).

Local Close Scope N_scope.

(** An ASCII literal as a JavaScript string. *)
Definition js (s : string) : js_string :=
  Byte.to_N <$> String.list_byte_of_string s.

(** ** [src/types.ts] *)

Module EncryptedData.
Record t : Type := mk {
  salt1 : js_string;
  salt2 : js_string;
  iv1 : js_string;
  iv2 : js_string;
  authTag1 : js_string;
  authTag2 : js_string;
  ciphertext : js_string
}.
End EncryptedData.

Module UnpackedData.
Record t : Type := mk {
  salt1 : Buffer;
  salt2 : Buffer;
  iv1 : Buffer;
  iv2 : Buffer;
  authTag1 : Buffer;
  authTag2 : Buffer;
  encryptedData : Buffer
}.
End UnpackedData.

(** ** [src/utils/packData.ts] *)

(** The messages of the six checks,
    [`Salt1 deve ter exatamente 16 bytes (recebido: ${salt1.length})`]
    and the like. *)
Definition field_length_message (name : string) (expected actual : nat) : string :=
  name +:+ " deve ter exatamente " +:+ pretty expected
       +:+ " bytes (recebido: " +:+ pretty actual +:+ ")".

Definition packData (stale : nat → Byte.byte)
    (salt1 salt2 iv1 iv2 authTag1 authTag2 encryptedData : Buffer)
    : completion Buffer :=
  if negb (length salt1 =? 16) then
    Throw (Error (field_length_message "Salt1" 16 (length salt1)))
  else if negb (length salt2 =? 16) then
    Throw (Error (field_length_message "Salt2" 16 (length salt2)))
  else if negb (length iv1 =? 12) then
    Throw (Error (field_length_message "IV1" 12 (length iv1)))
  else if negb (length iv2 =? 12) then
    Throw (Error (field_length_message "IV2" 12 (length iv2)))
  else if negb (length authTag1 =? 16) then
    Throw (Error (field_length_message "AuthTag1" 16 (length authTag1)))
  else if negb (length authTag2 =? 16) then
    Throw (Error (field_length_message "AuthTag2" 16 (length authTag2)))
  else
    let totalSize := 88 + length encryptedData in
    let packed := Buffer.allocUnsafe stale totalSize in
    let offset := 0 in
    let packed := Buffer.copy salt1 packed offset in
    let offset := offset + 16 in
    let packed := Buffer.copy salt2 packed offset in
    let offset := offset + 16 in
    let packed := Buffer.copy iv1 packed offset in
    let offset := offset + 12 in
    let packed := Buffer.copy iv2 packed offset in
    let offset := offset + 12 in
    let packed := Buffer.copy authTag1 packed offset in
    let offset := offset + 16 in
    let packed := Buffer.copy authTag2 packed offset in
    let offset := offset + 16 in
    let packed := Buffer.copy encryptedData packed offset in
    Return packed.

(** The lengths [packData] insists on. *)
Definition valid_lengths (salt1 salt2 iv1 iv2 authTag1 authTag2 : Buffer) : Prop :=
  length salt1 = 16 ∧ length salt2 = 16 ∧ length iv1 = 12 ∧ length iv2 = 12
  ∧ length authTag1 = 16 ∧ length authTag2 = 16.

(** The fixed fields in the order they are checked: the name used in the
    message, the length asked for, the buffer. *)
Definition fixed_fields (salt1 salt2 iv1 iv2 authTag1 authTag2 : Buffer)
    : list (string * nat * Buffer) :=
  [ ("Salt1", 16, salt1); ("Salt2", 16, salt2); ("IV1", 12, iv1);
    ("IV2", 12, iv2); ("AuthTag1", 16, authTag1); ("AuthTag2", 16, authTag2) ].

(** [field] is what [buffer] holds from offset [start] up to [stop]. *)
Definition field_at (buffer field : Buffer) (start stop : nat) : Prop :=
  length field = stop - start ∧
  ∀ i, i < stop - start → field !! i = buffer !! (start + i).

(** ** [src/utils/unpackData.ts] *)

Definition HEADER_SIZE : nat := 88.

(** [`Arquivo corrompido: tamanho mínimo ${HEADER_SIZE} bytes
    (recebido: ${buffer.length})`] *)
Definition corrupted_file_message (minimum actual : nat) : string :=
  "Arquivo corrompido: tamanho mínimo " +:+ pretty minimum
    +:+ " bytes (recebido: " +:+ pretty actual +:+ ")".

Definition unpackData (buffer : Buffer) : completion UnpackedData.t :=
  if length buffer <? HEADER_SIZE then
    Throw (Error (corrupted_file_message HEADER_SIZE (length buffer)))
  else
    let offset := 0 in
    let salt1 := Buffer.subarray buffer offset (offset + 16) in
    let offset := offset + 16 in
    let salt2 := Buffer.subarray buffer offset (offset + 16) in
    let offset := offset + 16 in
    let iv1 := Buffer.subarray buffer offset (offset + 12) in
    let offset := offset + 12 in
    let iv2 := Buffer.subarray buffer offset (offset + 12) in
    let offset := offset + 12 in
    let authTag1 := Buffer.subarray buffer offset (offset + 16) in
    let offset := offset + 16 in
    let authTag2 := Buffer.subarray buffer offset (offset + 16) in
    let offset := offset + 16 in
    let encryptedData := Buffer.subarray_from buffer offset in
    Return (UnpackedData.mk salt1 salt2 iv1 iv2 authTag1 authTag2 encryptedData).

(** ** [node:crypto]

    The library is not part of the repository.  What DyCrypt uses of it is
    modelled over the primitives that OpenSSL supplies, which stay
    abstract: the scrypt function, the key stream of each cipher (AES in
    counter mode for GCM, the ChaCha20 block function) and its tag
    (GHASH, Poly1305) over the ciphertext, and the argument checks of the
    constructors. *)

Inductive Algorithm : Type :=
  | aes_256_gcm
  | chacha20_poly1305.

Class NodeCrypto : Type := mkNodeCrypto {
  (** [scrypt(password, salt, keylen, {N, r, p})]: the key, or the error
      handed to the callback. *)
  scrypt_kdf : Buffer → Buffer → nat → N → N → N → completion Buffer;
  (** The [i]-th key stream byte under a key and a nonce. *)
  keystream : Algorithm → Buffer → Buffer → nat → Byte.byte;
  (** The authentication tag of a ciphertext (no associated data). *)
  auth_tag : Algorithm → Buffer → Buffer → Buffer → Buffer;
  (** What [createCipheriv]/[createDecipheriv] throw for a key, a nonce
      and an [authTagLength] option they reject. *)
  check_key_iv : Algorithm → Buffer → Buffer → option nat → option JsError;
  (** What [setAuthTag] throws for a tag it rejects, under the
      [authTagLength] the object was made with. *)
  check_tag : Algorithm → option nat → Buffer → option JsError
}.

(** What the library promises for the sizes DyCrypt uses. *)
Class NodeCryptoLaws `{NodeCrypto} : Prop := {
  scrypt_kdf_length password salt keylen cost block par key :
    scrypt_kdf password salt keylen cost block par = Return key →
    length key = keylen;
  auth_tag_length alg key iv data : length (auth_tag alg key iv data) = 16;
  check_key_iv_ok alg key iv authTagLength :
    length key = 32 → length iv = 12 →
    authTagLength = None ∨ authTagLength = Some 16 →
    check_key_iv alg key iv authTagLength = None;
  check_tag_ok alg authTagLength tag :
    authTagLength = None ∨ authTagLength = Some 16 →
    length tag = 16 → check_tag alg authTagLength tag = None
}.

(** The message of the error that [decipher.final()] throws when the tag
    does not verify. *)
Definition ERR_AUTH : JsError :=
  Error "Unsupported state or unable to authenticate data".

Fixpoint buffer_eqb (a b : Buffer) : bool :=
  match a, b with
  | [], [] => true
  | x :: a', y :: b' => Byte.eqb x y && buffer_eqb a' b'
  | _, _ => false
  end.

(** XOR of [data] with the key stream from position [pos] on. *)
Fixpoint xor_stream (ks : nat → Byte.byte) (pos : nat) (data : Buffer) : Buffer :=
  match data with
  | [] => []
  | b :: rest => byte_xor b (ks pos) :: xor_stream ks (S pos) rest
  end.

(** What a fresh cipher object of either kind makes of [data]. *)
Definition stream_crypt `{!NodeCrypto} (alg : Algorithm) (key iv data : Buffer)
    : Buffer :=
  xor_stream (keystream alg key iv) 0 data.

(** The [authTagLength] option of the constructors; a tag has 16 bytes
    when it is left out. *)
Definition tag_length (authTagLength : option nat) : nat :=
  default 16 authTagLength.

(** A [Cipheriv] object: its parameters and the ciphertext it has put out. *)
Record Cipheriv : Type := mkCipheriv {
  cipher_alg : Algorithm;
  cipher_key : Buffer;
  cipher_iv : Buffer;
  cipher_authTagLength : option nat;
  cipher_out : Buffer
}.

(** A [Decipheriv] object: its parameters, the tag it was given and the
    ciphertext it has taken in. *)
Record Decipheriv : Type := mkDecipheriv {
  decipher_alg : Algorithm;
  decipher_key : Buffer;
  decipher_iv : Buffer;
  decipher_authTagLength : option nat;
  decipher_tag : option Buffer;
  decipher_in : Buffer
}.

(** The calls into [node:crypto], in the order they are made. *)
Inductive Event : Type :=
  | EvRandomBytes (size : nat)
  | EvScrypt (password salt : Buffer)
  | EvCreateCipheriv (alg : Algorithm) (key iv : Buffer)
  | EvCipherUpdate (alg : Algorithm) (data : Buffer)
  | EvCipherFinal (alg : Algorithm)
  | EvGetAuthTag (alg : Algorithm)
  | EvCreateDecipheriv (alg : Algorithm) (key iv : Buffer)
  | EvSetAuthTag (alg : Algorithm) (tag : Buffer)
  | EvDecipherUpdate (alg : Algorithm) (data : Buffer)
  | EvDecipherFinal (alg : Algorithm).

(** The calls that undo one layer, in the order [decrypt] makes them. *)
Definition layer_calls (alg : Algorithm)
    (password salt key iv authTag data : Buffer) : list Event :=
  [ EvScrypt password salt;
    EvCreateDecipheriv alg key iv;
    EvSetAuthTag alg authTag;
    EvDecipherUpdate alg data;
    EvDecipherFinal alg ].

(** ** [src/DyCrypt.ts]: the object *)

Module ScryptParams.
Record t : Type := mk {
  N : BinNums.N;
  r : BinNums.N;
  p : BinNums.N;
  keyLength : nat;
  saltLength : nat
}.
End ScryptParams.

Record DyCrypt : Type := mkDyCrypt {
  masterPassword : Buffer;
  scryptParams : ScryptParams.t
}.

(** [new DyCrypt(masterPassword)] *)
Definition DyCrypt_new (masterPassword : js_string) : DyCrypt :=
  {| masterPassword := utf8_encode masterPassword;
     scryptParams := ScryptParams.mk 16384 8 1 32 16 |}.

(** ** The state a method runs in

    The receiver, the operating system's random source (the bytes it will
    deliver next) and the log of calls into [node:crypto]. *)
Record Runtime : Type := mkRuntime {
  this : DyCrypt;
  entropy : nat → Byte.byte;
  calls : list Event
}.


Definition M (A : Type) : Type := Runtime → completion A * Runtime.

Global Instance M_ret : MRet M := λ A a rt, (Return a, rt).
Global Instance M_bind : MBind M := λ A B f m rt,
  match m rt with
  | (Return a, rt') => f a rt'
  | (Throw e, rt') => (Throw e, rt')
  end.

Definition throw {A} (e : JsError) : M A := λ rt, (Throw e, rt).

Definition lift {A} (c : completion A) : M A := λ rt, (c, rt).

Definition get_this : M DyCrypt := λ rt, (Return (this rt), rt).

(** The state after one more call was logged. *)
Definition logged (ev : Event) (rt : Runtime) : Runtime :=
  mkRuntime (this rt) (entropy rt) (calls rt ++ [ev]).

Definition log (ev : Event) : M unit := λ rt, (Return (), logged ev rt).

Section node_crypto.
Context `{!NodeCrypto}.

(** [crypto.randomBytes(size)] *)
Definition crypto_randomBytes (size : nat) : M Buffer := λ rt,
  (Return (entropy rt <$> seq 0 size),
   mkRuntime (this rt) (λ i, entropy rt (size + i))
             (calls rt ++ [EvRandomBytes size])).

(** [crypto.scrypt(password, salt, keylen, options, callback)], awaited. *)
Definition crypto_scrypt (password salt : Buffer) (keylen : nat)
    (cost block par : N) : M Buffer :=
  log (EvScrypt password salt);;
  lift (scrypt_kdf password salt keylen cost block par).

(** [crypto.createCipheriv(algorithm, key, iv, { authTagLength })] *)
Definition crypto_createCipheriv (alg : Algorithm) (key iv : Buffer)
    (authTagLength : option nat) : M Cipheriv :=
  log (EvCreateCipheriv alg key iv);;
  match check_key_iv alg key iv authTagLength with
  | Some e => throw e
  | None => mret (mkCipheriv alg key iv authTagLength [])
  end.

(** [cipher.update(data)]: the object after the call, and what it returns. *)
Definition Cipher_update (c : Cipheriv) (data : Buffer)
    : M (Cipheriv * Buffer) :=
  log (EvCipherUpdate (cipher_alg c) data);;
  let out :=
    xor_stream (keystream (cipher_alg c) (cipher_key c) (cipher_iv c))
               (length (cipher_out c)) data in
  mret (mkCipheriv (cipher_alg c) (cipher_key c) (cipher_iv c)
          (cipher_authTagLength c) (cipher_out c ++ out), out).

(** [cipher.final()]: a stream cipher holds nothing back. *)
Definition Cipher_final (c : Cipheriv) : M (Cipheriv * Buffer) :=
  log (EvCipherFinal (cipher_alg c));;
  mret (c, []).

(** [cipher.getAuthTag()], called after [final()]. *)
Definition Cipher_getAuthTag (c : Cipheriv) : M Buffer :=
  log (EvGetAuthTag (cipher_alg c));;
  mret (take (tag_length (cipher_authTagLength c))
          (auth_tag (cipher_alg c) (cipher_key c) (cipher_iv c)
             (cipher_out c))).

(** [crypto.createDecipheriv(algorithm, key, iv, { authTagLength })] *)
Definition crypto_createDecipheriv (alg : Algorithm) (key iv : Buffer)
    (authTagLength : option nat) : M Decipheriv :=
  log (EvCreateDecipheriv alg key iv);;
  match check_key_iv alg key iv authTagLength with
  | Some e => throw e
  | None => mret (mkDecipheriv alg key iv authTagLength None [])
  end.

(** [decipher.setAuthTag(tag)] *)
Definition Decipher_setAuthTag (d : Decipheriv) (tag : Buffer)
    : M Decipheriv :=
  log (EvSetAuthTag (decipher_alg d) tag);;
  match check_tag (decipher_alg d) (decipher_authTagLength d) tag with
  | Some e => throw e
  | None =>
      mret (mkDecipheriv (decipher_alg d) (decipher_key d) (decipher_iv d)
              (decipher_authTagLength d) (Some tag) (decipher_in d))
  end.

(** [decipher.update(data)]: the plaintext of the chunk, not yet
    authenticated. *)
Definition Decipher_update (d : Decipheriv) (data : Buffer)
    : M (Decipheriv * Buffer) :=
  log (EvDecipherUpdate (decipher_alg d) data);;
  let out :=
    xor_stream (keystream (decipher_alg d) (decipher_key d) (decipher_iv d))
               (length (decipher_in d)) data in
  mret (mkDecipheriv (decipher_alg d) (decipher_key d) (decipher_iv d)
          (decipher_authTagLength d) (decipher_tag d)
          (decipher_in d ++ data), out).

(** [decipher.final()]: compares the tag that was set with as many
    bytes of the tag of what was taken in, and throws when they differ
    or no tag was set. *)
Definition Decipher_final (d : Decipheriv) : M Buffer :=
  log (EvDecipherFinal (decipher_alg d));;
  match decipher_tag d with
  | Some tag =>
      if buffer_eqb tag
           (take (length tag)
              (auth_tag (decipher_alg d) (decipher_key d) (decipher_iv d)
                 (decipher_in d)))
      then mret []
      else throw ERR_AUTH
  | None => throw ERR_AUTH
  end.

(** ** [src/DyCrypt.ts]: the methods *)

Definition _deriveKey (salt : Buffer) : M Buffer :=
  this ← get_this;
  crypto_scrypt (masterPassword this) salt
    (ScryptParams.keyLength (scryptParams this))
    (ScryptParams.N (scryptParams this))
    (ScryptParams.r (scryptParams this))
    (ScryptParams.p (scryptParams this)).

Definition encrypt (data : js_string) : M EncryptedData.t :=
  (* CAMADA 1: AES-256-GCM *)
  this ← get_this;
  salt1 ← crypto_randomBytes (ScryptParams.saltLength (scryptParams this));
  key1 ← _deriveKey salt1;
  iv1 ← crypto_randomBytes 12;
  cipher1 ← crypto_createCipheriv aes_256_gcm key1 iv1 None;
  '(cipher1, encrypted1) ← Cipher_update cipher1 (utf8_encode data);
  '(cipher1, rest1) ← Cipher_final cipher1;
  let encrypted1 := Buffer.concat [encrypted1; rest1] in
  authTag1 ← Cipher_getAuthTag cipher1;
  (* CAMADA 2: ChaCha20-Poly1305 *)
  this ← get_this;
  salt2 ← crypto_randomBytes (ScryptParams.saltLength (scryptParams this));
  key2 ← _deriveKey salt2;
  iv2 ← crypto_randomBytes 12;
  cipher2 ← crypto_createCipheriv chacha20_poly1305 key2 iv2 (Some 16);
  '(cipher2, encrypted2) ← Cipher_update cipher2 encrypted1;
  '(cipher2, rest2) ← Cipher_final cipher2;
  let encrypted2 := Buffer.concat [encrypted2; rest2] in
  authTag2 ← Cipher_getAuthTag cipher2;
  mret (EncryptedData.mk
          (base64_encode salt1) (base64_encode salt2)
          (base64_encode iv1) (base64_encode iv2)
          (base64_encode authTag1) (base64_encode authTag2)
          (base64_encode encrypted2)).

Definition decrypt (encryptedData : EncryptedData.t) : M js_string :=
  let salt1 := base64_decode (EncryptedData.salt1 encryptedData) in
  let salt2 := base64_decode (EncryptedData.salt2 encryptedData) in
  let iv1 := base64_decode (EncryptedData.iv1 encryptedData) in
  let iv2 := base64_decode (EncryptedData.iv2 encryptedData) in
  let authTag1 := base64_decode (EncryptedData.authTag1 encryptedData) in
  let authTag2 := base64_decode (EncryptedData.authTag2 encryptedData) in
  let ciphertext := base64_decode (EncryptedData.ciphertext encryptedData) in
  (* CAMADA 2: ChaCha20-Poly1305 (reverter primeiro) *)
  key2 ← _deriveKey salt2;
  decipher2 ← crypto_createDecipheriv chacha20_poly1305 key2 iv2 (Some 16);
  decipher2 ← Decipher_setAuthTag decipher2 authTag2;
  '(decipher2, decrypted2) ← Decipher_update decipher2 ciphertext;
  rest2 ← Decipher_final decipher2;
  let decrypted2 := Buffer.concat [decrypted2; rest2] in
  (* CAMADA 1: AES-256-GCM *)
  key1 ← _deriveKey salt1;
  decipher1 ← crypto_createDecipheriv aes_256_gcm key1 iv1 None;
  decipher1 ← Decipher_setAuthTag decipher1 authTag1;
  '(decipher1, decrypted1) ← Decipher_update decipher1 decrypted2;
  rest1 ← Decipher_final decipher1;
  let decrypted1 := Buffer.concat [decrypted1; rest1] in
  mret (utf8_decode decrypted1).


(** The four random values of one [encrypt] call, in the order they
    are drawn from the random source. *)
Definition drawn_salt1 (source : nat → Byte.byte) : Buffer :=
  source <$> seq 0 16.
Definition drawn_iv1 (source : nat → Byte.byte) : Buffer :=
  (λ i, source (16 + i)) <$> seq 0 12.
Definition drawn_salt2 (source : nat → Byte.byte) : Buffer :=
  (λ i, source (16 + (12 + i))) <$> seq 0 16.
Definition drawn_iv2 (source : nat → Byte.byte) : Buffer :=
  (λ i, source (16 + (12 + (16 + i)))) <$> seq 0 12.

(** What [encrypt] hands back for given keys. *)
Definition sealed (salt1 salt2 iv1 iv2 key1 key2 plain : Buffer)
    : EncryptedData.t :=
  let encrypted1 := stream_crypt aes_256_gcm key1 iv1 plain in
  let encrypted2 := stream_crypt chacha20_poly1305 key2 iv2 encrypted1 in
  EncryptedData.mk
    (base64_encode salt1) (base64_encode salt2)
    (base64_encode iv1) (base64_encode iv2)
    (base64_encode (auth_tag aes_256_gcm key1 iv1 encrypted1))
    (base64_encode (auth_tag chacha20_poly1305 key2 iv2 encrypted2))
    (base64_encode encrypted2).

End node_crypto.

(** A computation that leaves the receiver as it found it. *)
Definition keeps_this {A} (m : M A) : Prop :=
  ∀ rt, this (m rt).2 = this rt.

(** ** From an [encrypt] result to the [.dy] file and back

    The command line example, the demo and the README all wrap the core in
    the same way: every field of the result is read back from base64 and
    handed to [packData]; a file is taken apart by [unpackData] and every
    field is turned into base64 for [decrypt]. *)

Definition pack_result (stale : nat → Byte.byte) (resultado : EncryptedData.t)
    : completion Buffer :=
  let salt1 := base64_decode (EncryptedData.salt1 resultado) in
  let salt2 := base64_decode (EncryptedData.salt2 resultado) in
  let iv1 := base64_decode (EncryptedData.iv1 resultado) in
  let iv2 := base64_decode (EncryptedData.iv2 resultado) in
  let authTag1 := base64_decode (EncryptedData.authTag1 resultado) in
  let authTag2 := base64_decode (EncryptedData.authTag2 resultado) in
  let cifrado := base64_decode (EncryptedData.ciphertext resultado) in
  packData stale salt1 salt2 iv1 iv2 authTag1 authTag2 cifrado.

Definition unpacked_result (desempacotado : UnpackedData.t) : EncryptedData.t :=
  EncryptedData.mk
    (base64_encode (UnpackedData.salt1 desempacotado))
    (base64_encode (UnpackedData.salt2 desempacotado))
    (base64_encode (UnpackedData.iv1 desempacotado))
    (base64_encode (UnpackedData.iv2 desempacotado))
    (base64_encode (UnpackedData.authTag1 desempacotado))
    (base64_encode (UnpackedData.authTag2 desempacotado))
    (base64_encode (UnpackedData.encryptedData desempacotado)).

(** ** Stand-ins for the OpenSSL primitives

    Small, insecure functions of the right shapes, used to run the model
    on concrete inputs. *)

Definition demo_scrypt (password salt : Buffer) (keylen : nat)
    (cost block par : N) : completion Buffer :=
  Return (resize keylen x00 (salt ++ password)).

Definition demo_keystream (alg : Algorithm) (key iv : Buffer) (i : nat)
    : Byte.byte :=
  let tweak := match alg with aes_256_gcm => 90 | chacha20_poly1305 => 195 end in
  byte_xor (byte_of_N (N.of_nat (tweak + 7 * i)))
    (byte_xor (nth (i mod 32) key x00) (nth (i mod 12) iv x00)).

Definition demo_auth_tag (alg : Algorithm) (key iv data : Buffer) : Buffer :=
  resize 16 x00 (byte_xor (foldr byte_xor x00 (data ++ iv)) <$> rev key).

Definition demo_check_key_iv (alg : Algorithm) (key iv : Buffer)
    (authTagLength : option nat) : option JsError :=
  if negb (length key =? 32) then Some (Error "Invalid key length")
  else if negb (length iv =? 12) then Some (Error "Invalid initialization vector")
  else if negb (tag_length authTagLength =? 16) then
    Some (Error "Invalid authentication tag length")
  else None.

Definition demo_check_tag (alg : Algorithm) (authTagLength : option nat)
    (tag : Buffer) : option JsError :=
  if length tag =? tag_length authTagLength then None
  else Some (Error "Invalid authentication tag length").

Definition demo_crypto : NodeCrypto :=
  {| scrypt_kdf := demo_scrypt;
     keystream := demo_keystream;
     auth_tag := demo_auth_tag;
     check_key_iv := demo_check_key_iv;
     check_tag := demo_check_tag |}.

(** A random source that counts up from [start]. *)
Definition counting_entropy (start : nat) (i : nat) : Byte.byte :=
  byte_of_N (N.of_nat (start + i)).

Definition demo_runtime (passphrase : js_string) : Runtime :=
  mkRuntime (DyCrypt_new passphrase) (counting_entropy 1) [].

(** Inputs for the examples: a header of the right sizes and two bytes of
    payload. *)
Definition sample_salt1 : Buffer := replicate 16 x11.
Definition sample_salt2 : Buffer := replicate 16 x22.
Definition sample_iv1 : Buffer := replicate 12 x33.
Definition sample_iv2 : Buffer := replicate 12 x44.
Definition sample_tag1 : Buffer := replicate 16 x55.
Definition sample_tag2 : Buffer := replicate 16 x66.
Definition sample_payload : Buffer := [xca; xfe].
Definition sample_stale (i : nat) : Byte.byte := xff.

Definition demo_passphrase : js_string := js "CorrectHorseBatteryStaple".
Definition demo_plaintext : js_string := js "attack at dawn".

(** What [encrypt] returns for the scenario of the design document. *)
Definition demo_result : EncryptedData.t :=
  Eval vm_compute in
    match (@encrypt demo_crypto demo_plaintext
             (demo_runtime demo_passphrase)).1 with
    | Return ed => ed
    | Throw _ => EncryptedData.mk [] [] [] [] [] [] []
    end.

(** The same result with the tag of layer 2, or of layer 1, replaced. *)
Definition forged_authTag2 : EncryptedData.t :=
  EncryptedData.mk
    (EncryptedData.salt1 demo_result) (EncryptedData.salt2 demo_result)
    (EncryptedData.iv1 demo_result) (EncryptedData.iv2 demo_result)
    (EncryptedData.authTag1 demo_result)
    (base64_encode (replicate 16 x00))
    (EncryptedData.ciphertext demo_result).

Definition forged_authTag1 : EncryptedData.t :=
  EncryptedData.mk
    (EncryptedData.salt1 demo_result) (EncryptedData.salt2 demo_result)
    (EncryptedData.iv1 demo_result) (EncryptedData.iv2 demo_result)
    (base64_encode (replicate 16 x00))
    (EncryptedData.authTag2 demo_result)
    (EncryptedData.ciphertext demo_result).


(** A scrypt that fails for the salts that start with [refused], and the
    stand-ins around it. *)
Definition refusing_scrypt (refused : Byte.byte) (password salt : Buffer)
    (keylen : nat) (cost block par : N) : completion Buffer :=
  match salt with
  | b :: _ =>
      if Byte.eqb b refused then Throw (Error "scrypt failed")
      else demo_scrypt password salt keylen cost block par
  | [] => demo_scrypt password salt keylen cost block par
  end.

Definition refusing_crypto (refused : Byte.byte) : NodeCrypto :=
  {| scrypt_kdf := refusing_scrypt refused;
     keystream := demo_keystream;
     auth_tag := demo_auth_tag;
     check_key_iv := demo_check_key_iv;
     check_tag := demo_check_tag |}.

(** * Properties *)

(** ** Bytes and bit operations *)

Local Open Scope N_scope.

Ltac div_lia := zify; Z.to_euclidean_division_equations; lia.

(** Settle the comparisons of the goal whose outcome [lia] can tell. *)
Ltac decide_tests :=
  repeat match goal with
  | |- context [?a <=? ?b] =>
      first [ rewrite (proj2 (N.leb_le a b)) by lia
            | rewrite (proj2 (N.leb_gt a b)) by lia ]
  | |- context [?a <? ?b] =>
      first [ rewrite (proj2 (N.ltb_lt a b)) by lia
            | rewrite (proj2 (N.ltb_ge a b)) by lia ]
  | |- context [?a =? ?b] =>
      first [ rewrite (proj2 (N.eqb_eq a b)) by lia
            | rewrite (proj2 (N.eqb_neq a b)) by lia ]
  end; simpl.

Lemma land_0xFF n : N.land n 0xFF = n mod 256.
Proof. exact (N.land_ones n 8). Qed.

Lemma to_N_byte_of_N n : n < 256 → Byte.to_N (byte_of_N n) = n.
Proof.
  intros Hn. unfold byte_of_N. rewrite land_0xFF, N.mod_small by done.
  destruct (Byte.of_N n) as [b|] eqn:Hb.
  - by apply Byte.to_of_N.
  - apply Byte.of_N_None_iff in Hb. lia.
Qed.

Lemma byte_of_N_to_N b : byte_of_N (Byte.to_N b) = b.
Proof.
  unfold byte_of_N. pose proof (Byte.to_N_bounded b).
  rewrite land_0xFF, N.mod_small by lia. by rewrite Byte.of_to_N.
Qed.

Lemma to_N_inj a b : Byte.to_N a = Byte.to_N b → a = b.
Proof. intros E. by rewrite <- (byte_of_N_to_N a), E, byte_of_N_to_N. Qed.

Lemma lxor_byte_bound a b : a < 256 → b < 256 → N.lxor a b < 256.
Proof.
  intros Ha Hb. destruct (N.eq_dec (N.lxor a b) 0) as [->|Hne]; [done|].
  change 256 with (2 ^ 8). apply N.log2_lt_pow2; [lia|].
  eapply N.le_lt_trans; [apply N.log2_lxor|].
  assert (∀ x, x < 256 → N.log2 x < 8) as Hlog.
  { intros x Hx. destruct (N.eq_dec x 0) as [->|?]; [done|].
    apply N.log2_lt_pow2; [lia|done]. }
  apply N.max_lub_lt; auto.
Qed.

Lemma byte_xor_involutive a k : byte_xor (byte_xor a k) k = a.
Proof.
  unfold byte_xor. pose proof (Byte.to_N_bounded a). pose proof (Byte.to_N_bounded k).
  rewrite to_N_byte_of_N by (apply lxor_byte_bound; lia).
  rewrite N.lxor_assoc, N.lxor_nilpotent, N.lxor_0_r. apply byte_of_N_to_N.
Qed.

(** [a << n | b] is [a * 2^n + b] when [b] fits in [n] bits. *)
Lemma lor_shiftl_low a b n : b < 2 ^ n → N.lor (N.shiftl a n) b = a * 2 ^ n + b.
Proof.
  intros Hb. rewrite N.shiftl_mul_pow2.
  assert (N.land (a * 2 ^ n) b = 0) as Hdisj.
  { apply N.bits_inj. intros i. rewrite N.land_spec, N.bits_0.
    destruct (N.lt_ge_cases i n) as [Hi|Hi].
    - by rewrite N.mul_pow2_bits_low.
    - rewrite andb_false_iff. right.
      destruct (N.eq_dec b 0) as [->|Hb0]; [apply N.bits_0|].
      apply N.bits_above_log2. eapply N.lt_le_trans; [|exact Hi].
      apply N.log2_lt_pow2; lia. }
  by rewrite <- N.lxor_lor, <- N.add_nocarry_lxor.
Qed.

Lemma lor_high a n b : b < 2 ^ n → N.lor (a * 2 ^ n) b = a * 2 ^ n + b.
Proof.
  intros. rewrite <- (lor_shiftl_low a b n) by done.
  by rewrite N.shiftl_mul_pow2.
Qed.

Lemma digits x d :
  d ≠ 0 → ∃ q r, x / d = q ∧ x mod d = r ∧ x = d * q + r ∧ r < d.
Proof.
  intros. exists (x / d), (x mod d).
  split_and!; [done|done|by apply N.div_mod|by apply N.mod_lt].
Qed.

Lemma shiftr_2 x : N.shiftr x 2 = x / 4.
Proof. exact (N.shiftr_div_pow2 x 2). Qed.
Lemma shiftr_4 x : N.shiftr x 4 = x / 16.
Proof. exact (N.shiftr_div_pow2 x 4). Qed.
Lemma shiftr_6 x : N.shiftr x 6 = x / 64.
Proof. exact (N.shiftr_div_pow2 x 6). Qed.
Lemma shiftr_10 x : N.shiftr x 10 = x / 1024.
Proof. exact (N.shiftr_div_pow2 x 10). Qed.
Lemma shiftr_12 x : N.shiftr x 12 = x / 64 / 64.
Proof. change 12 with (6 + 6). rewrite <- N.shiftr_shiftr. by rewrite !shiftr_6. Qed.
Lemma shiftr_18 x : N.shiftr x 18 = x / 64 / 64 / 64.
Proof.
  change 18 with (12 + 6). rewrite <- N.shiftr_shiftr.
  by rewrite shiftr_12, shiftr_6.
Qed.
Lemma shiftl_10 x : N.shiftl x 10 = x * 1024.
Proof. exact (N.shiftl_mul_pow2 x 10). Qed.

Lemma land_0x3 x : N.land x 0x3 = x mod 4.
Proof. exact (N.land_ones x 2). Qed.
Lemma land_0x7 x : N.land x 0x7 = x mod 8.
Proof. exact (N.land_ones x 3). Qed.
Lemma land_0xF x : N.land x 0xF = x mod 16.
Proof. exact (N.land_ones x 4). Qed.
Lemma land_0x1F x : N.land x 0x1F = x mod 32.
Proof. exact (N.land_ones x 5). Qed.
Lemma land_0x3F x : N.land x 0x3F = x mod 64.
Proof. exact (N.land_ones x 6). Qed.
Lemma land_0x3FF x : N.land x 0x3FF = x mod 1024.
Proof. exact (N.land_ones x 10). Qed.

Lemma lor_0x80 b : b < 64 → N.lor 0x80 b = 0x80 + b.
Proof. exact (lor_high 2 6 b). Qed.
Lemma lor_0xC0 b : b < 64 → N.lor 0xC0 b = 0xC0 + b.
Proof. exact (lor_high 3 6 b). Qed.
Lemma lor_0xE0 b : b < 16 → N.lor 0xE0 b = 0xE0 + b.
Proof. exact (lor_high 14 4 b). Qed.
Lemma lor_0xF0 b : b < 8 → N.lor 0xF0 b = 0xF0 + b.
Proof. exact (lor_high 30 3 b). Qed.
Lemma lor_shiftl_2 a b : b < 4 → N.lor (N.shiftl a 2) b = a * 4 + b.
Proof. exact (lor_shiftl_low a b 2). Qed.
Lemma lor_shiftl_4 a b : b < 16 → N.lor (N.shiftl a 4) b = a * 16 + b.
Proof. exact (lor_shiftl_low a b 4). Qed.
Lemma lor_shiftl_6 a b : b < 64 → N.lor (N.shiftl a 6) b = a * 64 + b.
Proof. exact (lor_shiftl_low a b 6). Qed.

(** ** UTF-8: decoding what was encoded *)

Lemma cont_byte_to_N x : Byte.to_N (cont_byte x) = 128 + x mod 64.
Proof.
  unfold cont_byte. rewrite land_0x3F, lor_0x80 by (apply N.mod_lt; done).
  apply to_N_byte_of_N. pose proof (N.mod_lt x 64). lia.
Qed.

Lemma push_6 cp b :
  N.lor (N.shiftl cp 6) (N.land b 0x3F) = cp * 64 + b mod 64.
Proof. rewrite land_0x3F. by apply lor_shiftl_6, N.mod_lt. Qed.

Lemma utf8_step_lead b : utf8_step utf8_start b = utf8_lead b.
Proof. done. Qed.

(** A continuation byte inside the window of an open sequence. *)
Lemma utf8_step_cont cp lo hi x r seen needed :
  x mod 64 = r →
  0x80 ≤ lo ≤ 128 + r → 128 + r ≤ hi ≤ 0xBF →
  needed ≠ 0 →
  utf8_step (Utf8State cp seen needed lo hi) (Byte.to_N (cont_byte x))
  = if seen + 1 =? needed then (utf8_start, [cp * 64 + r])
    else (Utf8State (cp * 64 + r) (seen + 1) needed 0x80 0xBF, []).
Proof.
  intros Hr Hlo Hhi Hn. unfold utf8_step; simpl.
  rewrite cont_byte_to_N, push_6. pose proof (N.mod_lt x 64).
  replace ((128 + x mod 64) mod 64) with (x mod 64) by div_lia.
  rewrite Hr in *. by decide_tests.
Qed.

Lemma utf8_feed_code_point cp :
  is_scalar cp →
  utf8_feed utf8_start (utf8_of_code_point cp) = (utf8_start, [cp]).
Proof.
  intros Hcp. unfold is_scalar in Hcp. unfold utf8_of_code_point.
  destruct (N.ltb_spec cp 0x80) as [H1|H1].
  { cbn [utf8_feed]. rewrite to_N_byte_of_N, utf8_step_lead by lia.
    unfold utf8_lead. by decide_tests. }
  destruct (digits cp 64) as (q & r0 & Eq & Er0 & E0 & B0); [done|].
  destruct (N.ltb_spec cp 0x800) as [H2|H2].
  { cbn [utf8_feed]. rewrite shiftr_6, Eq.
    rewrite lor_0xC0, to_N_byte_of_N, utf8_step_lead by lia.
    unfold utf8_lead. decide_tests.
    rewrite land_0x1F, (utf8_step_cont _ _ _ _ r0) by (first [done|lia]).
    clear Eq Er0. simpl. do 3 f_equal. div_lia. }
  destruct (digits q 64) as (p & r1 & Ep & Er1 & E1 & B1); [done|].
  destruct (N.ltb_spec cp 0x10000) as [H3|H3].
  { cbn [utf8_feed]. rewrite shiftr_12, shiftr_6, Eq, Ep.
    rewrite lor_0xE0, to_N_byte_of_N, utf8_step_lead by lia.
    unfold utf8_lead. decide_tests. rewrite land_0xF.
    assert (0x80 ≤ (if 224 + p =? 224 then 160 else 128) ≤ 128 + r1).
    { destruct (N.eqb_spec (224 + p) 224); lia. }
    assert (128 + r1 ≤ (if 224 + p =? 237 then 159 else 191) ≤ 0xBF).
    { destruct (N.eqb_spec (224 + p) 237); lia. }
    rewrite (utf8_step_cont _ _ _ _ r1) by (first [done|lia]). simpl.
    rewrite (utf8_step_cont _ _ _ _ r0) by (first [done|lia]).
    clear Eq Er0 Ep Er1. simpl. do 3 f_equal. div_lia. }
  destruct (digits p 64) as (o & r2 & Eo & Er2 & E2 & B2); [done|].
  cbn [utf8_feed]. rewrite shiftr_18, shiftr_12, shiftr_6, Eq, Ep, Eo.
  rewrite lor_0xF0, to_N_byte_of_N, utf8_step_lead by lia.
  unfold utf8_lead. decide_tests. rewrite land_0x7.
  assert (0x80 ≤ (if 240 + o =? 240 then 144 else 128) ≤ 128 + r2).
  { destruct (N.eqb_spec (240 + o) 240); lia. }
  assert (128 + r2 ≤ (if 240 + o =? 244 then 143 else 191) ≤ 0xBF).
  { destruct (N.eqb_spec (240 + o) 244); lia. }
  rewrite (utf8_step_cont _ _ _ _ r2) by (first [done|lia]). simpl.
  rewrite (utf8_step_cont _ _ _ _ r1) by (first [done|lia]). simpl.
  rewrite (utf8_step_cont _ _ _ _ r0) by (first [done|lia]).
  clear Eq Er0 Ep Er1 Eo Er2. simpl. do 3 f_equal. div_lia.
Qed.

Lemma utf8_feed_app st bs1 bs2 :
  utf8_feed st (bs1 ++ bs2) =
    let '(st1, out1) := utf8_feed st bs1 in
    let '(st2, out2) := utf8_feed st1 bs2 in
    (st2, out1 ++ out2).
Proof.
  revert st. induction bs1 as [|b bs1 IH]; intros st; simpl.
  - by destruct (utf8_feed st bs2).
  - destruct (utf8_step st (Byte.to_N b)) as [st1 out1]. rewrite IH.
    destruct (utf8_feed st1 bs1) as [st2 out2].
    destruct (utf8_feed st2 bs2) as [st3 out3]. by rewrite (assoc_L (++)).
Qed.

Lemma utf16_of_bmp u : u < 0x10000 → utf16_of_code_point u = [u].
Proof. intros. unfold utf16_of_code_point. by decide_tests. Qed.

Lemma surrogate_pair_code_point h l :
  is_high_surrogate h = true → is_low_surrogate l = true →
  let cp := 0x10000 + N.shiftl (h - 0xD800) 10 + (l - 0xDC00) in
  is_scalar cp ∧ utf16_of_code_point cp = [h; l].
Proof.
  unfold is_high_surrogate, is_low_surrogate.
  rewrite !andb_true_iff, !N.leb_le. intros [??] [??]. simpl.
  rewrite shiftl_10. split; [right; lia|].
  unfold utf16_of_code_point. decide_tests.
  rewrite shiftr_10, !land_0x3FF. f_equal; [|f_equal]; div_lia.
Qed.

Lemma utf8_feed_encode (n : nat) : ∀ s,
  (length s ≤ n)%nat → isWellFormed s = true →
  ∃ cps, utf8_feed utf8_start (utf8_encode s) = (utf8_start, cps)
         ∧ cps ≫= utf16_of_code_point = s.
Proof.
  induction n as [|n IH]; intros [|u rest] Hlen Hwf; simpl in *;
    try (by exists []); try lia.
  destruct (is_high_surrogate u) eqn:Hh.
  - destruct rest as [|v rest]; [done|].
    apply andb_true_iff in Hwf as [Hl Hwf]. rewrite Hl.
    destruct (surrogate_pair_code_point u v Hh Hl) as [Hcp H16].
    destruct (IH rest) as (cps & Hfeed & Hcps); [simpl in *; lia|done|].
    eexists. rewrite utf8_feed_app, utf8_feed_code_point, Hfeed by done.
    split; [done|]. by rewrite bind_app, bind_singleton, H16, Hcps.
  - apply andb_true_iff in Hwf as [Hu Hwf].
    apply andb_true_iff in Hu as [Hu Hl].
    apply negb_true_iff in Hl. rewrite Hl. apply N.ltb_lt in Hu.
    destruct (IH rest) as (cps & Hfeed & Hcps); [lia|done|].
    eexists. rewrite utf8_feed_app, utf8_feed_code_point, Hfeed.
    + split; [done|]. by rewrite bind_app, bind_singleton, utf16_of_bmp, Hcps.
    + unfold is_high_surrogate, is_low_surrogate, is_scalar in *.
      rewrite andb_false_iff, !N.leb_gt in Hh, Hl. lia.
Qed.

(** Well-formed text survives the trip through UTF-8. *)
Lemma utf8_decode_encode s :
  isWellFormed s = true → utf8_decode (utf8_encode s) = s.
Proof.
  intros Hwf.
  destruct (utf8_feed_encode (length s) s) as (cps & Hfeed & Hcps); [done..|].
  unfold utf8_decode. rewrite Hfeed. unfold utf8_flush. simpl.
  by rewrite app_nil_r.
Qed.

(** The encoder does to an unpaired surrogate what [toWellFormed] does. *)
Lemma utf8_encode_toWellFormed_upto (n : nat) : ∀ s,
  (length s ≤ n)%nat → utf8_encode (toWellFormed s) = utf8_encode s.
Proof.
  induction n as [|n IH]; intros [|u rest] Hlen; simpl in Hlen;
    try done; try lia.
  cbn [toWellFormed utf8_encode].
  destruct (is_high_surrogate u) eqn:Hh.
  - destruct rest as [|v rest]; [done|].
    destruct (is_low_surrogate v) eqn:Hl.
    + cbn [utf8_encode]. rewrite Hh, Hl, IH; [done|simpl in *; lia].
    + change (utf8_encode (REPLACEMENT :: ?t))
        with (utf8_of_code_point REPLACEMENT ++ utf8_encode t).
      rewrite IH; [done|simpl in *; lia].
  - destruct (is_low_surrogate u) eqn:Hl.
    + change (utf8_encode (REPLACEMENT :: ?t))
        with (utf8_of_code_point REPLACEMENT ++ utf8_encode t).
      rewrite IH; [done|lia].
    + cbn [utf8_encode]. rewrite Hh, Hl, IH; [done|lia].
Qed.

Lemma utf8_encode_toWellFormed s :
  utf8_encode (toWellFormed s) = utf8_encode s.
Proof. by apply (utf8_encode_toWellFormed_upto (length s)). Qed.

Lemma isWellFormed_toWellFormed_upto (n : nat) : ∀ s,
  (length s ≤ n)%nat → Forall (λ u, u < 0x10000) s →
  isWellFormed (toWellFormed s) = true.
Proof.
  induction n as [|n IH]; intros [|u rest] Hlen Hunits; simpl in Hlen;
    try done; try lia.
  inversion_clear Hunits as [|? ? Hu Hrest].
  cbn [toWellFormed].
  destruct (is_high_surrogate u) eqn:Hh.
  - destruct rest as [|v rest]; [done|].
    destruct (is_low_surrogate v) eqn:Hl.
    + cbn [isWellFormed]. rewrite Hh, Hl. cbn [andb].
      inversion_clear Hrest as [|? ? _ Hrest'].
      apply IH; [simpl in *; lia|done].
    + change (isWellFormed (REPLACEMENT :: ?t)) with (isWellFormed t).
      apply IH; [simpl in *; lia|done].
  - destruct (is_low_surrogate u) eqn:Hl.
    + change (isWellFormed (REPLACEMENT :: ?t)) with (isWellFormed t).
      apply IH; [lia|done].
    + cbn [isWellFormed]. rewrite Hh, Hl.
      rewrite (proj2 (N.ltb_lt _ _) Hu). cbn [andb negb].
      apply IH; [lia|done].
Qed.

(** What a string of 16-bit code units is after a trip through UTF-8. *)
Lemma utf8_decode_encode_any s :
  Forall (λ u, u < 0x10000) s →
  utf8_decode (utf8_encode s) = toWellFormed s.
Proof.
  intros Hunits. rewrite <- utf8_encode_toWellFormed.
  apply utf8_decode_encode.
  by apply (isWellFormed_toWellFormed_upto (length s)).
Qed.

(** ** base64: decoding what was encoded *)

Lemma b64_value_char v :
  v < 64 → b64_value (b64_char v) = Some v ∧ b64_char v ≠ PAD.
Proof.
  intros Hv. unfold b64_value, b64_char, PAD.
  destruct (N.ltb_spec v 26); [decide_tests; split; [f_equal|]; lia|].
  destruct (N.ltb_spec v 52); [decide_tests; split; [f_equal|]; lia|].
  destruct (N.ltb_spec v 62); [decide_tests; split; [f_equal|]; lia|].
  destruct (N.eqb_spec v 62); [decide_tests; split; [f_equal|]; lia|].
  decide_tests; split; [f_equal|]; lia.
Qed.

Lemma b64_sextets_chars vs tail :
  Forall (λ v, v < 64) vs →
  b64_sextets ((b64_char <$> vs) ++ tail) = vs ++ b64_sextets tail.
Proof.
  induction 1 as [|v vs Hv _ IH]; [done|].
  rewrite fmap_cons. cbn [app b64_sextets].
  destruct (b64_value_char v Hv) as [-> _]. by rewrite IH.
Qed.

(** The four sextets of a 24-bit group, and the group read back. *)
Lemma b64_split_join a b c :
  a < 256 → b < 256 → c < 256 →
  ∃ s1 s2 s3 s4, b64_split a b c = [s1; s2; s3; s4]
    ∧ s1 < 64 ∧ s2 < 64 ∧ s3 < 64 ∧ s4 < 64
    ∧ Byte.to_N (b64_join1 s1 s2) = a ∧ Byte.to_N (b64_join2 s2 s3) = b
    ∧ Byte.to_N (b64_join3 s3 s4) = c.
Proof.
  intros Ha Hb Hc. unfold b64_split, b64_join1, b64_join2, b64_join3.
  rewrite shiftr_2, shiftr_4, shiftr_6, land_0x3, land_0xF, land_0x3F.
  destruct (digits a 4) as (a1 & a0 & -> & -> & Ea & ?); [done|].
  destruct (digits b 16) as (b1 & b0 & -> & -> & Eb & ?); [done|].
  destruct (digits c 64) as (c1 & c0 & -> & -> & Ec & ?); [done|].
  rewrite lor_shiftl_4, lor_shiftl_2 by lia.
  eexists _, _, _, _. split; [done|].
  rewrite shiftr_2, shiftr_4, land_0x3, land_0xF.
  replace ((a0 * 16 + b1) / 16) with a0 by div_lia.
  replace ((a0 * 16 + b1) mod 16) with b1 by div_lia.
  replace ((b0 * 4 + c1) / 4) with b0 by div_lia.
  replace ((b0 * 4 + c1) mod 4) with c1 by div_lia.
  rewrite lor_shiftl_2, lor_shiftl_4, lor_shiftl_6 by lia.
  rewrite !to_N_byte_of_N by lia. lia.
Qed.

Lemma base64_decode_encode_upto (n : nat) : ∀ bs,
  (length bs ≤ n)%nat → base64_decode (base64_encode bs) = bs.
Proof.
  unfold base64_decode.
  induction n as [|n IH]; intros [|a [|b [|c rest]]] Hlen;
    simpl in Hlen; try done; try lia.
  - pose proof (Byte.to_N_bounded a).
    destruct (b64_split_join (Byte.to_N a) 0 0)
      as (s1&s2&s3&s4&E&?&?&?&?&Ha&_); [lia..|].
    cbn [base64_encode]. rewrite E. cbn [take].
    rewrite b64_sextets_chars by (repeat constructor; done).
    cbn. f_equal. by apply to_N_inj.
  - pose proof (Byte.to_N_bounded a). pose proof (Byte.to_N_bounded b).
    destruct (b64_split_join (Byte.to_N a) (Byte.to_N b) 0)
      as (s1&s2&s3&s4&E&?&?&?&?&Ha&Hb&_); [lia..|].
    cbn [base64_encode]. rewrite E. cbn [take].
    rewrite b64_sextets_chars by (repeat constructor; done).
    cbn. f_equal; [|f_equal]; by apply to_N_inj.
  - pose proof (Byte.to_N_bounded a). pose proof (Byte.to_N_bounded b).
    pose proof (Byte.to_N_bounded c).
    destruct (b64_split_join (Byte.to_N a) (Byte.to_N b) (Byte.to_N c))
      as (s1&s2&s3&s4&E&?&?&?&?&Ha&Hb&Hc); [lia..|].
    cbn [base64_encode]. rewrite E.
    rewrite b64_sextets_chars by (repeat constructor; done).
    cbn [app b64_bytes]. rewrite IH by lia.
    f_equal; [|f_equal; [|f_equal]]; by apply to_N_inj.
Qed.

Lemma base64_decode_encode bs : base64_decode (base64_encode bs) = bs.
Proof. by apply (base64_decode_encode_upto (length bs)). Qed.

Local Close Scope N_scope.

(** ** The container: [packData] and [unpackData] *)

Ltac field_lengths := rewrite ?length_app; simpl; lia.

Section container.
Implicit Types salt iv authTag source : Buffer.
Implicit Types encryptedData buffer packed pre old post : Buffer.

Lemma allocUnsafe_length stale size :
  length (Buffer.allocUnsafe stale size) = size.
Proof. unfold Buffer.allocUnsafe. by rewrite length_fmap, length_seq. Qed.

(** Overwriting one whole segment of a buffer. *)
Lemma copy_segment source pre old post targetStart :
  targetStart = length pre → length source = length old →
  Buffer.copy source (pre ++ old ++ post) targetStart
  = (pre ++ source) ++ post.
Proof.
  intros -> Hlen. unfold Buffer.copy.
  rewrite <- (Nat.add_0_r (length pre)), list_inserts_app_r.
  by rewrite list_inserts_0_r, (assoc_L (++)).
Qed.

Lemma copy_front source old post :
  length source = length old →
  Buffer.copy source (old ++ post) 0 = source ++ post.
Proof. exact (copy_segment source [] old post 0 eq_refl). Qed.

(** A buffer cut where a segment of [n] bytes ends. *)
Lemma buffer_cut buffer n m :
  length buffer = n + m →
  ∃ old post, buffer = old ++ post ∧ length old = n ∧ length post = m.
Proof.
  intros Hlen. exists (take n buffer), (drop n buffer).
  rewrite take_drop, length_take, length_drop. split_and!; [done|lia..].
Qed.

Lemma packData_concat stale salt1 salt2 iv1 iv2 authTag1 authTag2 encryptedData :
  valid_lengths salt1 salt2 iv1 iv2 authTag1 authTag2 →
  packData stale salt1 salt2 iv1 iv2 authTag1 authTag2 encryptedData
  = Return (salt1 ++ salt2 ++ iv1 ++ iv2 ++ authTag1 ++ authTag2
              ++ encryptedData).
Proof.
  intros (H1 & H2 & H3 & H4 & H5 & H6). unfold packData.
  rewrite H1, H2, H3, H4, H5, H6. cbn [Nat.eqb negb].
  pose proof (allocUnsafe_length stale (88 + length encryptedData)) as Hlen.
  destruct (buffer_cut _ 16 (72 + length encryptedData) Hlen)
    as (j1 & r1 & -> & ? & Hr1).
  destruct (buffer_cut _ 16 (56 + length encryptedData) Hr1)
    as (j2 & r2 & -> & ? & Hr2).
  destruct (buffer_cut _ 12 (44 + length encryptedData) Hr2)
    as (j3 & r3 & -> & ? & Hr3).
  destruct (buffer_cut _ 12 (32 + length encryptedData) Hr3)
    as (j4 & r4 & -> & ? & Hr4).
  destruct (buffer_cut _ 16 (16 + length encryptedData) Hr4)
    as (j5 & r5 & -> & ? & Hr5).
  destruct (buffer_cut _ 16 (length encryptedData) Hr5)
    as (j6 & j7 & -> & ? & Hr6).
  cbn zeta.
  rewrite (copy_front salt1 j1) by lia.
  rewrite (copy_segment salt2 _ j2) by (rewrite ?length_app; simpl; lia).
  rewrite (copy_segment iv1 _ j3) by (rewrite ?length_app; simpl; lia).
  rewrite (copy_segment iv2 _ j4) by (rewrite ?length_app; simpl; lia).
  rewrite (copy_segment authTag1 _ j5) by (rewrite ?length_app; simpl; lia).
  rewrite (copy_segment authTag2 _ j6) by (rewrite ?length_app; simpl; lia).
  rewrite <- (app_nil_r j7).
  rewrite (copy_segment encryptedData _ j7 [])
    by (rewrite ?length_app; simpl; lia).
  f_equal. rewrite app_nil_r. simpl. by rewrite <- !(assoc_L (++)).
Qed.


Lemma field_at_app pre field post start stop :
  start = length pre → stop = start + length field →
  field_at (pre ++ field ++ post) field start stop.
Proof.
  intros -> ->. split; [lia|]. intros i Hi.
  rewrite lookup_app_r by lia.
  replace (length pre + i - length pre) with i by lia.
  by rewrite lookup_app_l by lia.
Qed.

Lemma field_at_subarray buffer start stop :
  start ≤ stop ≤ length buffer →
  field_at buffer (Buffer.subarray buffer start stop) start stop.
Proof.
  intros Hle. unfold Buffer.subarray. split.
  - rewrite length_take, length_drop. lia.
  - intros i Hi. by rewrite lookup_take_lt, lookup_drop by done.
Qed.

Lemma field_at_subarray_from buffer start :
  start ≤ length buffer →
  field_at buffer (Buffer.subarray_from buffer start) start (length buffer).
Proof.
  intros Hle. unfold Buffer.subarray_from. split.
  - by rewrite length_drop.
  - intros i Hi. by rewrite lookup_drop.
Qed.

Lemma unpackData_short buffer :
  length buffer < 88 →
  unpackData buffer
  = Throw (Error (corrupted_file_message 88 (length buffer))).
Proof.
  intros Hlt. unfold unpackData, HEADER_SIZE.
  by rewrite (proj2 (Nat.ltb_lt _ _) Hlt).
Qed.

Lemma unpackData_long buffer :
  88 ≤ length buffer →
  unpackData buffer
  = Return (UnpackedData.mk
      (Buffer.subarray buffer 0 16) (Buffer.subarray buffer 16 32)
      (Buffer.subarray buffer 32 44) (Buffer.subarray buffer 44 56)
      (Buffer.subarray buffer 56 72) (Buffer.subarray buffer 72 88)
      (Buffer.subarray_from buffer 88)).
Proof.
  intros Hle. unfold unpackData, HEADER_SIZE.
  by rewrite (proj2 (Nat.ltb_ge _ _) Hle).
Qed.

Lemma subarray_app pre field post start stop :
  start = length pre → stop = start + length field →
  Buffer.subarray (pre ++ field ++ post) start stop = field.
Proof.
  intros -> ->. unfold Buffer.subarray.
  rewrite drop_app_length.
  replace (length pre + length field - length pre) with (length field) by lia.
  by rewrite take_app_length.
Qed.


(** The container seen as a prefix, one field and the rest; the side
    conditions are sums of the six fixed lengths. *)
Lemma container_fields salt1 salt2 iv1 iv2 authTag1 authTag2 encryptedData :
  valid_lengths salt1 salt2 iv1 iv2 authTag1 authTag2 →
  let packed :=
    salt1 ++ salt2 ++ iv1 ++ iv2 ++ authTag1 ++ authTag2 ++ encryptedData in
  length packed = 88 + length encryptedData
  ∧ packed = [] ++ salt1 ++ (salt2 ++ iv1 ++ iv2 ++ authTag1 ++ authTag2 ++ encryptedData)
  ∧ packed = salt1 ++ salt2 ++ (iv1 ++ iv2 ++ authTag1 ++ authTag2 ++ encryptedData)
  ∧ packed = (salt1 ++ salt2) ++ iv1 ++ (iv2 ++ authTag1 ++ authTag2 ++ encryptedData)
  ∧ packed = (salt1 ++ salt2 ++ iv1) ++ iv2 ++ (authTag1 ++ authTag2 ++ encryptedData)
  ∧ packed = (salt1 ++ salt2 ++ iv1 ++ iv2) ++ authTag1 ++ (authTag2 ++ encryptedData)
  ∧ packed = (salt1 ++ salt2 ++ iv1 ++ iv2 ++ authTag1) ++ authTag2 ++ encryptedData
  ∧ packed = (salt1 ++ salt2 ++ iv1 ++ iv2 ++ authTag1 ++ authTag2) ++ encryptedData ++ [].
Proof.
  intros (H1 & H2 & H3 & H4 & H5 & H6) packed. subst packed.
  split; [field_lengths|].
  rewrite app_nil_r. split_and!; by rewrite <- ?(assoc_L (++)).
Qed.

(** What [unpackData] makes of six fields of the right lengths written
    one behind the other, and of what follows them. *)
Lemma unpackData_concat salt1 salt2 iv1 iv2 authTag1 authTag2 encryptedData :
  valid_lengths salt1 salt2 iv1 iv2 authTag1 authTag2 →
  unpackData (salt1 ++ salt2 ++ iv1 ++ iv2 ++ authTag1 ++ authTag2
                ++ encryptedData)
  = Return (UnpackedData.mk salt1 salt2 iv1 iv2 authTag1 authTag2
              encryptedData).
Proof.
  intros Hvalid.
  destruct (container_fields _ _ _ _ _ _ encryptedData Hvalid)
    as (Hlen & E1 & E2 & E3 & E4 & E5 & E6 & E7).
  destruct Hvalid as (H1 & H2 & H3 & H4 & H5 & H6).
  rewrite unpackData_long by lia. do 2 f_equal.
  - rewrite E1. apply subarray_app; simpl; lia.
  - apply subarray_app; lia.
  - rewrite E3. apply subarray_app; field_lengths.
  - rewrite E4. apply subarray_app; field_lengths.
  - rewrite E5. apply subarray_app; field_lengths.
  - rewrite E6. apply subarray_app; field_lengths.
  - rewrite E7, app_nil_r. unfold Buffer.subarray_from.
    apply drop_app_length'. field_lengths.
Qed.

(** [packData] returns only for fields that pass its six checks. *)
Lemma packData_Return_valid stale salt1 salt2 iv1 iv2 authTag1 authTag2
    encryptedData packed :
  packData stale salt1 salt2 iv1 iv2 authTag1 authTag2 encryptedData
  = Return packed →
  valid_lengths salt1 salt2 iv1 iv2 authTag1 authTag2.
Proof.
  unfold packData, valid_lengths.
  destruct (Nat.eqb_spec (length salt1) 16); cbn [negb]; [|done].
  destruct (Nat.eqb_spec (length salt2) 16); cbn [negb]; [|done].
  destruct (Nat.eqb_spec (length iv1) 12); cbn [negb]; [|done].
  destruct (Nat.eqb_spec (length iv2) 12); cbn [negb]; [|done].
  destruct (Nat.eqb_spec (length authTag1) 16); cbn [negb]; [|done].
  destruct (Nat.eqb_spec (length authTag2) 16); cbn [negb]; done.
Qed.

(** The seven pieces that [unpackData] cuts a buffer into put the buffer
    together again, and the first six have the fixed lengths. *)
Lemma unpackData_cut buffer :
  88 ≤ length buffer →
  let salt1 := Buffer.subarray buffer 0 16 in
  let salt2 := Buffer.subarray buffer 16 32 in
  let iv1 := Buffer.subarray buffer 32 44 in
  let iv2 := Buffer.subarray buffer 44 56 in
  let authTag1 := Buffer.subarray buffer 56 72 in
  let authTag2 := Buffer.subarray buffer 72 88 in
  let encryptedData := Buffer.subarray_from buffer 88 in
  buffer = salt1 ++ salt2 ++ iv1 ++ iv2 ++ authTag1 ++ authTag2
             ++ encryptedData
  ∧ valid_lengths salt1 salt2 iv1 iv2 authTag1 authTag2.
Proof.
  intros Hle. cbv zeta.
  unfold Buffer.subarray, Buffer.subarray_from, valid_lengths. split.
  - rewrite drop_0. cbn [Nat.sub]. rewrite !(assoc_L (++)).
    rewrite (take_take_drop buffer 16 16). cbn [Nat.add].
    rewrite (take_take_drop buffer 32 12). cbn [Nat.add].
    rewrite (take_take_drop buffer 44 12). cbn [Nat.add].
    rewrite (take_take_drop buffer 56 16). cbn [Nat.add].
    rewrite (take_take_drop buffer 72 16). cbn [Nat.add].
    by rewrite (take_drop 88 buffer).
  - rewrite !length_take, !length_drop. cbn [Nat.sub]. lia.
Qed.

End container.

Lemma sample_valid_lengths :
  valid_lengths sample_salt1 sample_salt2 sample_iv1 sample_iv2
    sample_tag1 sample_tag2.
Proof. repeat split. Defined.

(** C4.  With six fixed fields of the right lengths, [packData] returns
    exactly [salt1 ++ salt2 ++ iv1 ++ iv2 ++ authTag1 ++ authTag2 ++
    encryptedData]: salt1 sits at [0,16), salt2 at [16,32), iv1 at
    [32,44), iv2 at [44,56), authTag1 at [56,72), authTag2 at [72,88) and
    the payload at [88,N).  [unpackData] reads the fields of any buffer of
    at least 88 bytes from the same offsets. *)
Theorem packData_layout stale salt1 salt2 iv1 iv2 authTag1 authTag2
    encryptedData buffer :
  valid_lengths salt1 salt2 iv1 iv2 authTag1 authTag2 →
  88 ≤ length buffer →
  (∃ packed,
     packData stale salt1 salt2 iv1 iv2 authTag1 authTag2 encryptedData
       = Return packed
     ∧ packed = salt1 ++ salt2 ++ iv1 ++ iv2 ++ authTag1 ++ authTag2
                  ++ encryptedData
     ∧ field_at packed salt1 0 16 ∧ field_at packed salt2 16 32
     ∧ field_at packed iv1 32 44 ∧ field_at packed iv2 44 56
     ∧ field_at packed authTag1 56 72 ∧ field_at packed authTag2 72 88
     ∧ field_at packed encryptedData 88 (length packed))
  ∧ (∃ u,
     unpackData buffer = Return u
     ∧ field_at buffer (UnpackedData.salt1 u) 0 16
     ∧ field_at buffer (UnpackedData.salt2 u) 16 32
     ∧ field_at buffer (UnpackedData.iv1 u) 32 44
     ∧ field_at buffer (UnpackedData.iv2 u) 44 56
     ∧ field_at buffer (UnpackedData.authTag1 u) 56 72
     ∧ field_at buffer (UnpackedData.authTag2 u) 72 88
     ∧ field_at buffer (UnpackedData.encryptedData u) 88 (length buffer)).
Proof.
  intros Hvalid Hbuffer. split.
  - eexists. split; [by apply packData_concat|]. split; [done|].
    destruct (container_fields _ _ _ _ _ _ encryptedData Hvalid)
      as (Hlen & E1 & E2 & E3 & E4 & E5 & E6 & E7).
    destruct Hvalid as (H1 & H2 & H3 & H4 & H5 & H6).
    split_and!.
    + rewrite E1. apply field_at_app; simpl; lia.
    + apply field_at_app; lia.
    + rewrite E3. apply field_at_app; field_lengths.
    + rewrite E4. apply field_at_app; field_lengths.
    + rewrite E5. apply field_at_app; field_lengths.
    + rewrite E6. apply field_at_app; field_lengths.
    + rewrite Hlen. rewrite E7. apply field_at_app; field_lengths.
  - eexists. split; [by apply unpackData_long|].
    cbn [UnpackedData.salt1 UnpackedData.salt2 UnpackedData.iv1
         UnpackedData.iv2 UnpackedData.authTag1 UnpackedData.authTag2
         UnpackedData.encryptedData].
    split_and!; first [apply field_at_subarray; lia
                      |by apply field_at_subarray_from].
Qed.

Lemma packData_layout_witness :
  valid_lengths sample_salt1 sample_salt2 sample_iv1 sample_iv2
    sample_tag1 sample_tag2
  ∧ 88 ≤ length (replicate 90 x00)
  ∧ ∃ packed,
      packData sample_stale sample_salt1 sample_salt2 sample_iv1 sample_iv2
        sample_tag1 sample_tag2 sample_payload = Return packed
      ∧ field_at packed sample_iv2 44 56.
Proof.
  split; [exact sample_valid_lengths|]. split; [simpl; lia|].
  destruct (packData_layout sample_stale sample_salt1 sample_salt2 sample_iv1
              sample_iv2 sample_tag1 sample_tag2 sample_payload
              (replicate 90 x00) sample_valid_lengths ltac:(simpl; lia))
    as [(packed & Hpack & _ & _ & _ & _ & Hiv2 & _) _].
  exists packed. split; [exact Hpack | exact Hiv2].
Defined.

(** C5.  For fields of the valid lengths (salts 16, IVs 12, tags 16) and
    any payload, the empty one included, [unpackData (packData ...)]
    gives back each of the seven fields byte for byte. *)
Theorem unpackData_packData stale salt1 salt2 iv1 iv2 authTag1 authTag2
    encryptedData :
  valid_lengths salt1 salt2 iv1 iv2 authTag1 authTag2 →
  ∃ packed,
    packData stale salt1 salt2 iv1 iv2 authTag1 authTag2 encryptedData
      = Return packed
    ∧ unpackData packed
      = Return (UnpackedData.mk salt1 salt2 iv1 iv2 authTag1 authTag2
                  encryptedData).
Proof.
  intros Hvalid. eexists. split; [by apply packData_concat|].
  destruct (container_fields _ _ _ _ _ _ encryptedData Hvalid)
    as (Hlen & E1 & E2 & E3 & E4 & E5 & E6 & E7).
  destruct Hvalid as (H1 & H2 & H3 & H4 & H5 & H6).
  rewrite unpackData_long by lia. do 2 f_equal.
  - rewrite E1. apply subarray_app; simpl; lia.
  - apply subarray_app; lia.
  - rewrite E3. apply subarray_app; field_lengths.
  - rewrite E4. apply subarray_app; field_lengths.
  - rewrite E5. apply subarray_app; field_lengths.
  - rewrite E6. apply subarray_app; field_lengths.
  - rewrite E7, app_nil_r. unfold Buffer.subarray_from.
    apply drop_app_length'. field_lengths.
Qed.

Lemma unpackData_packData_witness :
  valid_lengths sample_salt1 sample_salt2 sample_iv1 sample_iv2
    sample_tag1 sample_tag2
  ∧ ∃ packed,
      packData sample_stale sample_salt1 sample_salt2 sample_iv1 sample_iv2
        sample_tag1 sample_tag2 [] = Return packed
      ∧ unpackData packed
        = Return (UnpackedData.mk sample_salt1 sample_salt2 sample_iv1
                    sample_iv2 sample_tag1 sample_tag2 []).
Proof.
  split; [exact sample_valid_lengths|].
  exact (unpackData_packData sample_stale sample_salt1 sample_salt2
           sample_iv1 sample_iv2 sample_tag1 sample_tag2 []
           sample_valid_lengths).
Defined.

(** C6.  When a fixed field has the wrong length (a salt not of 16 bytes,
    an IV not of 12, a tag not of 16), [packData] throws an error whose
    message names such a field, the first one in the order of the
    parameters, and gives its actual length, and no buffer is returned;
    when all six lengths are right it returns a buffer. *)
Theorem packData_validation stale salt1 salt2 iv1 iv2 authTag1 authTag2
    encryptedData :
  (¬ valid_lengths salt1 salt2 iv1 iv2 authTag1 authTag2 →
   ∃ before name expected field after,
     fixed_fields salt1 salt2 iv1 iv2 authTag1 authTag2
       = before ++ (name, expected, field) :: after
     ∧ Forall (λ '(_, n, f), length f = n) before
     ∧ length field ≠ expected
     ∧ packData stale salt1 salt2 iv1 iv2 authTag1 authTag2 encryptedData
       = Throw (Error (field_length_message name expected (length field))))
  ∧ (valid_lengths salt1 salt2 iv1 iv2 authTag1 authTag2 →
     ∃ packed,
       packData stale salt1 salt2 iv1 iv2 authTag1 authTag2 encryptedData
       = Return packed).
Proof.
  split; [|intros Hvalid; eexists; by apply packData_concat].
  intros Hinvalid. unfold packData, fixed_fields.
  destruct (Nat.eqb_spec (length salt1) 16) as [H1|H1]; cbn [negb];
    [|by eexists [], _, _, salt1, _; split_and!; [done|constructor|..]].
  destruct (Nat.eqb_spec (length salt2) 16) as [H2|H2]; cbn [negb];
    [|by eexists [_], _, _, salt2, _;
        split_and!; [done|repeat constructor|..]].
  destruct (Nat.eqb_spec (length iv1) 12) as [H3|H3]; cbn [negb];
    [|by eexists [_; _], _, _, iv1, _;
        split_and!; [done|repeat constructor|..]].
  destruct (Nat.eqb_spec (length iv2) 12) as [H4|H4]; cbn [negb];
    [|by eexists [_; _; _], _, _, iv2, _;
        split_and!; [done|repeat constructor|..]].
  destruct (Nat.eqb_spec (length authTag1) 16) as [H5|H5]; cbn [negb];
    [|by eexists [_; _; _; _], _, _, authTag1, _;
        split_and!; [done|repeat constructor|..]].
  destruct (Nat.eqb_spec (length authTag2) 16) as [H6|H6]; cbn [negb];
    [|by eexists [_; _; _; _; _], _, _, authTag2, _;
        split_and!; [done|repeat constructor|..]].
  destruct Hinvalid. by repeat split.
Qed.

(** The 15-byte salt of the design document. *)
Example packData_salt_of_15_bytes :
  packData sample_stale (replicate 15 x11) sample_salt2 sample_iv1 sample_iv2
    sample_tag1 sample_tag2 sample_payload
  = Throw (Error "Salt1 deve ter exatamente 16 bytes (recebido: 15)").
Proof. vm_compute. reflexivity. Qed.

Example packData_names_first_wrong_field :
  packData sample_stale sample_salt1 sample_salt2 sample_iv1 [] sample_tag1
    [] sample_payload
  = Throw (Error "IV2 deve ter exatamente 12 bytes (recebido: 0)").
Proof. vm_compute. reflexivity. Qed.

(** C7.  [unpackData] throws exactly when its input is shorter than 88
    bytes.  Any input of at least 88 bytes is accepted as it is: the
    first 88 bytes are cut into the six fields, in order, and what
    follows, possibly nothing, is the payload. *)
Theorem unpackData_accepts_iff_header buffer :
  ((∃ e, unpackData buffer = Throw e) ↔ length buffer < 88)
  ∧ (length buffer < 88 →
     unpackData buffer
     = Throw (Error (corrupted_file_message 88 (length buffer))))
  ∧ (88 ≤ length buffer →
     ∃ u, unpackData buffer = Return u
       ∧ buffer = UnpackedData.salt1 u ++ UnpackedData.salt2 u
                    ++ UnpackedData.iv1 u ++ UnpackedData.iv2 u
                    ++ UnpackedData.authTag1 u ++ UnpackedData.authTag2 u
                    ++ UnpackedData.encryptedData u
       ∧ valid_lengths (UnpackedData.salt1 u) (UnpackedData.salt2 u)
           (UnpackedData.iv1 u) (UnpackedData.iv2 u)
           (UnpackedData.authTag1 u) (UnpackedData.authTag2 u)).
Proof.
  split_and!.
  - split.
    + intros [e He]. destruct (Nat.lt_ge_cases (length buffer) 88); [done|].
      by rewrite unpackData_long in He.
    + intros Hlt. eexists. by apply unpackData_short.
  - apply unpackData_short.
  - intros Hle. eexists. split; [by apply unpackData_long|].
    cbn [UnpackedData.salt1 UnpackedData.salt2 UnpackedData.iv1
         UnpackedData.iv2 UnpackedData.authTag1 UnpackedData.authTag2
         UnpackedData.encryptedData].
    unfold Buffer.subarray, Buffer.subarray_from, valid_lengths. split.
    + rewrite drop_0. cbn [Nat.sub]. rewrite !(assoc_L (++)).
      rewrite (take_take_drop buffer 16 16). cbn [Nat.add].
      rewrite (take_take_drop buffer 32 12). cbn [Nat.add].
      rewrite (take_take_drop buffer 44 12). cbn [Nat.add].
      rewrite (take_take_drop buffer 56 16). cbn [Nat.add].
      rewrite (take_take_drop buffer 72 16). cbn [Nat.add].
      by rewrite (take_drop 88 buffer).
    + rewrite !length_take, !length_drop. cbn [Nat.sub]. lia.
Qed.

(** The 50-byte buffer of the design document. *)
Example unpackData_buffer_of_50_bytes :
  unpackData (replicate 50 x00)
  = Throw (Error (corrupted_file_message 88 50)).
Proof. vm_compute. reflexivity. Qed.

Example unpackData_header_only :
  unpackData (sample_salt1 ++ sample_salt2 ++ sample_iv1 ++ sample_iv2
                ++ sample_tag1 ++ sample_tag2)
  = Return (UnpackedData.mk sample_salt1 sample_salt2 sample_iv1 sample_iv2
              sample_tag1 sample_tag2 []).
Proof. vm_compute. reflexivity. Qed.

(** C10.  When the six fixed fields pass validation, every byte of the
    buffer that [packData] returns was written before it is returned:
    bytes [0,88) are the six fields in order, bytes [88, 88 + payload
    length) are the payload, and nothing of what [Buffer.allocUnsafe]
    left in the buffer remains. *)
Theorem packData_leaves_no_stale_byte stale stale' salt1 salt2 iv1 iv2
    authTag1 authTag2 encryptedData :
  valid_lengths salt1 salt2 iv1 iv2 authTag1 authTag2 →
  ∃ packed,
    packData stale salt1 salt2 iv1 iv2 authTag1 authTag2 encryptedData
      = Return packed
    ∧ packData stale' salt1 salt2 iv1 iv2 authTag1 authTag2 encryptedData
      = Return packed
    ∧ length packed = 88 + length encryptedData
    ∧ (∀ i, i < 88 →
         packed !! i
         = (salt1 ++ salt2 ++ iv1 ++ iv2 ++ authTag1 ++ authTag2) !! i)
    ∧ (∀ i, i < length encryptedData →
         packed !! (88 + i) = encryptedData !! i).
Proof.
  intros Hvalid. eexists. split_and!; [by apply packData_concat..| | |].
  - by destruct (container_fields _ _ _ _ _ _ encryptedData Hvalid) as [-> _].
  - intros i Hi.
    destruct (container_fields _ _ _ _ _ _ encryptedData Hvalid)
      as (_ & _ & _ & _ & _ & _ & _ & ->).
    destruct Hvalid as (H1 & H2 & H3 & H4 & H5 & H6).
    by rewrite lookup_app_l by field_lengths.
  - intros i Hi.
    destruct (container_fields _ _ _ _ _ _ encryptedData Hvalid)
      as (_ & _ & _ & _ & _ & _ & _ & ->).
    destruct Hvalid as (H1 & H2 & H3 & H4 & H5 & H6).
    rewrite app_nil_r, lookup_app_r by field_lengths.
    f_equal. field_lengths.
Qed.

Lemma packData_leaves_no_stale_byte_witness :
  valid_lengths sample_salt1 sample_salt2 sample_iv1 sample_iv2
    sample_tag1 sample_tag2
  ∧ ∃ packed,
      packData sample_stale sample_salt1 sample_salt2 sample_iv1 sample_iv2
        sample_tag1 sample_tag2 sample_payload = Return packed
      ∧ packData (λ _, x00) sample_salt1 sample_salt2 sample_iv1 sample_iv2
          sample_tag1 sample_tag2 sample_payload = Return packed
      ∧ length packed = 90.
Proof.
  split; [exact sample_valid_lengths|].
  destruct (packData_leaves_no_stale_byte sample_stale (λ _, x00)
              sample_salt1 sample_salt2 sample_iv1 sample_iv2 sample_tag1
              sample_tag2 sample_payload sample_valid_lengths)
    as (packed & H1 & H2 & H3 & _).
  exists packed. split; [exact H1|]. split; [exact H2 | exact H3].
Defined.

(** ** The stream ciphers *)

Lemma xor_stream_length ks pos data :
  length (xor_stream ks pos data) = length data.
Proof. revert pos. induction data as [|b data IH]; intros pos; simpl; auto. Qed.

Lemma xor_stream_involutive ks pos data :
  xor_stream ks pos (xor_stream ks pos data) = data.
Proof.
  revert pos. induction data as [|b data IH]; intros pos; simpl; [done|].
  by rewrite byte_xor_involutive, IH.
Qed.

Lemma buffer_eqb_eq (a b : Buffer) : buffer_eqb a b = true ↔ a = b.
Proof.
  revert b. induction a as [|x a IH]; intros [|y b]; simpl; try done.
  rewrite andb_true_iff, IH. split.
  - intros [Hxy ->]. by rewrite (Byte.byte_dec_bl _ _ Hxy).
  - intros [= -> ->]. by rewrite Byte.byte_dec_lb.
Qed.

Lemma buffer_eqb_refl (a : Buffer) : buffer_eqb a a = true.
Proof. by apply buffer_eqb_eq. Qed.

Lemma concat_pair (a b : Buffer) : Buffer.concat [a; b] = a ++ b.
Proof. unfold Buffer.concat. simpl. by rewrite app_nil_r. Qed.

Lemma randomBytes_length (source : nat → Byte.byte) size :
  length (source <$> seq 0 size) = size.
Proof. by rewrite length_fmap, length_seq. Qed.

(** ** Running a method step by step *)

Lemma run_bind {A B} (m : M A) (f : A → M B) rt :
  (m ≫= f) rt
  = match m rt with
    | (Return a, rt') => f a rt'
    | (Throw e, rt') => (Throw e, rt')
    end.
Proof. done. Qed.

Lemma run_ret {A} (a : A) rt : (mret a : M A) rt = (Return a, rt).
Proof. done. Qed.

Lemma run_throw {A} e rt : @throw A e rt = (Throw e, rt).
Proof. done. Qed.

Lemma run_lift {A} (c : completion A) rt : lift c rt = (c, rt).
Proof. done. Qed.

Lemma run_get_this rt : get_this rt = (Return (this rt), rt).
Proof. done. Qed.


Lemma run_randomBytes size rt :
  crypto_randomBytes size rt
  = (Return (entropy rt <$> seq 0 size),
     mkRuntime (this rt) (λ i, entropy rt (size + i))
       (calls rt ++ [EvRandomBytes size])).
Proof. done. Qed.

Lemma run_log ev rt : log ev rt = (Return (), logged ev rt).
Proof. done. Qed.

(** A call that returned: its value and the state it left. *)
Lemma returned {A} (a b : A) (rt rt' : Runtime) :
  (Return a, rt) = (Return b, rt') → a = b ∧ rt = rt'.
Proof. by intros [= -> ->]. Qed.

(** [size] bytes drawn after [start] others. *)
Lemma drawn_from (source : nat → Byte.byte) start size :
  (λ i, source (start + i)) <$> seq 0 size = source <$> seq start size.
Proof.
  transitivity (source <$> (Nat.add start <$> seq 0 size));
    [by rewrite <- list_fmap_compose|].
  by rewrite fmap_add_seq, Nat.add_0_r.
Qed.

Section node_crypto_steps.
Context `{!NodeCrypto}.

Lemma run_deriveKey salt rt :
  _deriveKey salt rt
  = (scrypt_kdf (masterPassword (this rt)) salt
       (ScryptParams.keyLength (scryptParams (this rt)))
       (ScryptParams.N (scryptParams (this rt)))
       (ScryptParams.r (scryptParams (this rt)))
       (ScryptParams.p (scryptParams (this rt))),
     logged (EvScrypt (masterPassword (this rt)) salt) rt).
Proof. done. Qed.

Lemma run_createCipheriv alg key iv authTagLength rt :
  crypto_createCipheriv alg key iv authTagLength rt
  = (match check_key_iv alg key iv authTagLength with
     | Some e => Throw e
     | None => Return (mkCipheriv alg key iv authTagLength [])
     end, logged (EvCreateCipheriv alg key iv) rt).
Proof.
  unfold crypto_createCipheriv. rewrite run_bind, run_log.
  by destruct (check_key_iv alg key iv authTagLength).
Qed.

Lemma run_Cipher_update alg key iv authTagLength data rt :
  Cipher_update (mkCipheriv alg key iv authTagLength []) data rt
  = (Return (mkCipheriv alg key iv authTagLength
               (stream_crypt alg key iv data),
             stream_crypt alg key iv data),
     logged (EvCipherUpdate alg data) rt).
Proof. done. Qed.

Lemma run_Cipher_final c rt :
  Cipher_final c rt = (Return (c, []), logged (EvCipherFinal (cipher_alg c)) rt).
Proof. done. Qed.

Lemma run_Cipher_getAuthTag c rt :
  Cipher_getAuthTag c rt
  = (Return (take (tag_length (cipher_authTagLength c))
               (auth_tag (cipher_alg c) (cipher_key c) (cipher_iv c)
                  (cipher_out c))),
     logged (EvGetAuthTag (cipher_alg c)) rt).
Proof. done. Qed.

Lemma run_createDecipheriv alg key iv authTagLength rt :
  crypto_createDecipheriv alg key iv authTagLength rt
  = (match check_key_iv alg key iv authTagLength with
     | Some e => Throw e
     | None => Return (mkDecipheriv alg key iv authTagLength None [])
     end, logged (EvCreateDecipheriv alg key iv) rt).
Proof.
  unfold crypto_createDecipheriv. rewrite run_bind, run_log.
  by destruct (check_key_iv alg key iv authTagLength).
Qed.

Lemma run_Decipher_setAuthTag alg key iv authTagLength tag rt :
  Decipher_setAuthTag (mkDecipheriv alg key iv authTagLength None []) tag rt
  = (match check_tag alg authTagLength tag with
     | Some e => Throw e
     | None => Return (mkDecipheriv alg key iv authTagLength (Some tag) [])
     end, logged (EvSetAuthTag alg tag) rt).
Proof.
  unfold Decipher_setAuthTag. rewrite run_bind, run_log.
  cbn [decipher_alg decipher_authTagLength].
  by destruct (check_tag alg authTagLength tag).
Qed.

Lemma run_Decipher_update alg key iv authTagLength tag data rt :
  Decipher_update (mkDecipheriv alg key iv authTagLength tag []) data rt
  = (Return (mkDecipheriv alg key iv authTagLength tag data,
             stream_crypt alg key iv data),
     logged (EvDecipherUpdate alg data) rt).
Proof. done. Qed.

Lemma run_Decipher_final alg key iv authTagLength tag data rt :
  Decipher_final (mkDecipheriv alg key iv authTagLength (Some tag) data) rt
  = (if buffer_eqb tag (take (length tag) (auth_tag alg key iv data))
     then Return [] else Throw ERR_AUTH,
     logged (EvDecipherFinal alg) rt).
Proof.
  unfold Decipher_final. rewrite run_bind, run_log.
  cbn [decipher_alg decipher_key decipher_iv decipher_tag decipher_in].
  by destruct (buffer_eqb _ _).
Qed.

End node_crypto_steps.

(** One step: open the next bind, run the call in front and go on with
    the continuation. *)
Ltac run_step :=
  first
    [ rewrite run_bind
    | rewrite run_ret | rewrite run_throw | rewrite run_get_this
    | rewrite run_randomBytes | rewrite run_deriveKey
    | rewrite run_createCipheriv | rewrite run_Cipher_update
    | rewrite run_Cipher_final | rewrite run_Cipher_getAuthTag
    | rewrite run_createDecipheriv | rewrite run_Decipher_setAuthTag
    | rewrite run_Decipher_update | rewrite run_Decipher_final
    | progress cbv beta iota
    | progress cbn [this entropy calls logged masterPassword scryptParams
                    ScryptParams.N ScryptParams.r ScryptParams.p
                    ScryptParams.keyLength ScryptParams.saltLength
                    cipher_alg cipher_key cipher_iv cipher_authTagLength
                    cipher_out tag_length default DyCrypt_new] ].

Ltac run := repeat run_step.

(** The calls logged on top of a trace, as one list. *)
Ltac made_calls :=
  unfold logged, layer_calls; cbn [fst snd this entropy calls];
  rewrite <- ?(assoc_L (++)); cbn [app]; try reflexivity.

Section dycrypt.
Context `{!NodeCrypto} `{!NodeCryptoLaws}.

Lemma stream_crypt_length alg key iv data :
  length (stream_crypt alg key iv data) = length data.
Proof. apply xor_stream_length. Qed.

Lemma stream_crypt_involutive alg key iv data :
  stream_crypt alg key iv (stream_crypt alg key iv data) = data.
Proof. apply xor_stream_involutive. Qed.

(** [encrypt] returns unless scrypt fails, and then it fails with
    scrypt's error. *)
Lemma encrypt_outcome p data source trace :
  let derive salt := scrypt_kdf (utf8_encode p) salt 32 16384 8 1 in
  match (encrypt data (mkRuntime (DyCrypt_new p) source trace)).1 with
  | Return ed =>
      ∃ key1 key2,
        derive (drawn_salt1 source) = Return key1
        ∧ derive (drawn_salt2 source) = Return key2
        ∧ ed = sealed (drawn_salt1 source) (drawn_salt2 source)
                 (drawn_iv1 source) (drawn_iv2 source) key1 key2
                 (utf8_encode data)
  | Throw e =>
      derive (drawn_salt1 source) = Throw e
      ∨ derive (drawn_salt2 source) = Throw e
  end.
Proof.
  intros derive. subst derive. unfold encrypt. run.
  fold (drawn_salt1 source).
  destruct (scrypt_kdf _ (drawn_salt1 source) _ _ _ _) as [key1|e1] eqn:Hk1;
    [|by left].
  run. fold (drawn_iv1 source).
  rewrite check_key_iv_ok
    by (first [by eapply scrypt_kdf_length | apply randomBytes_length
              | by left | by right]).
  run. fold (drawn_salt2 source).
  destruct (scrypt_kdf _ (drawn_salt2 source) _ _ _ _) as [key2|e2] eqn:Hk2;
    [|by right].
  run. fold (drawn_iv2 source).
  rewrite check_key_iv_ok
    by (first [by eapply scrypt_kdf_length | apply randomBytes_length
              | by left | by right]).
  run. rewrite !concat_pair, !app_nil_r. cbn [fst].
  rewrite !take_ge by (by rewrite auth_tag_length).
  by exists key1, key2.
Qed.

(** X5.  [encrypt] works from the inside out.  When both keys are
    derived it makes fourteen calls into [node:crypto]: salt, key, IV,
    cipher, update, final and tag of AES-256-GCM on the bytes of the
    plaintext, then the same seven of ChaCha20-Poly1305 on what
    AES-256-GCM put out. *)
Lemma encrypt_inner_layer_first p data source trace key1 key2 :
  let password := utf8_encode p in
  let encrypted1 :=
    stream_crypt aes_256_gcm key1 (drawn_iv1 source) (utf8_encode data) in
  scrypt_kdf password (drawn_salt1 source) 32 16384 8 1 = Return key1 →
  scrypt_kdf password (drawn_salt2 source) 32 16384 8 1 = Return key2 →
  calls (encrypt data (mkRuntime (DyCrypt_new p) source trace)).2
  = trace
    ++ [ EvRandomBytes 16; EvScrypt password (drawn_salt1 source);
         EvRandomBytes 12;
         EvCreateCipheriv aes_256_gcm key1 (drawn_iv1 source);
         EvCipherUpdate aes_256_gcm (utf8_encode data);
         EvCipherFinal aes_256_gcm; EvGetAuthTag aes_256_gcm;
         EvRandomBytes 16; EvScrypt password (drawn_salt2 source);
         EvRandomBytes 12;
         EvCreateCipheriv chacha20_poly1305 key2 (drawn_iv2 source);
         EvCipherUpdate chacha20_poly1305 encrypted1;
         EvCipherFinal chacha20_poly1305; EvGetAuthTag chacha20_poly1305 ].
Proof.
  intros password encrypted1 Hk1 Hk2. subst password encrypted1.
  unfold encrypt. run. fold (drawn_salt1 source). rewrite Hk1.
  run. fold (drawn_iv1 source).
  rewrite check_key_iv_ok
    by (first [by eapply scrypt_kdf_length | apply randomBytes_length
              | by left | by right]).
  run. fold (drawn_salt2 source). rewrite Hk2.
  run. fold (drawn_iv2 source).
  rewrite check_key_iv_ok
    by (first [by eapply scrypt_kdf_length | apply randomBytes_length
              | by left | by right]).
  run. rewrite !concat_pair, !app_nil_r. unfold logged. cbn [snd calls].
  by rewrite <- !(assoc_L (++)).
Qed.

Lemma auth_tag_accepted alg authTagLength key iv data :
  authTagLength = None ∨ authTagLength = Some 16 →
  let tag := auth_tag alg key iv data in
  check_tag alg authTagLength tag = None
  ∧ buffer_eqb tag (take (length tag) (auth_tag alg key iv data)) = true.
Proof.
  intros Hopt. split; [by apply check_tag_ok, auth_tag_length|].
  rewrite take_ge by done. apply buffer_eqb_refl.
Qed.

(** [decrypt] undoes what [encrypt] put together, up to the decoding
    of the plaintext bytes as text. *)
Lemma decrypt_sealed p source trace salt1 salt2 iv1 iv2 key1 key2 plain :
  length iv1 = 12 → length iv2 = 12 →
  scrypt_kdf (utf8_encode p) salt1 32 16384 8 1 = Return key1 →
  scrypt_kdf (utf8_encode p) salt2 32 16384 8 1 = Return key2 →
  (decrypt (sealed salt1 salt2 iv1 iv2 key1 key2 plain)
     (mkRuntime (DyCrypt_new p) source trace)).1
  = Return (utf8_decode plain).
Proof.
  intros Hiv1 Hiv2 Hk1 Hk2. unfold decrypt, sealed.
  cbn [EncryptedData.salt1 EncryptedData.salt2 EncryptedData.iv1
       EncryptedData.iv2 EncryptedData.authTag1 EncryptedData.authTag2
       EncryptedData.ciphertext].
  rewrite !base64_decode_encode. run. rewrite Hk2. run.
  rewrite check_key_iv_ok
    by (first [by eapply scrypt_kdf_length | done | by left | by right]).
  run.
  destruct (auth_tag_accepted chacha20_poly1305 (Some 16) key2 iv2
              (stream_crypt chacha20_poly1305 key2 iv2
                 (stream_crypt aes_256_gcm key1 iv1 plain)))
    as [Hc2 Hb2]; [by right|].
  rewrite Hc2. run. rewrite Hb2. run. rewrite Hk1. run.
  rewrite check_key_iv_ok
    by (first [by eapply scrypt_kdf_length | done | by left | by right]).
  run. rewrite !concat_pair, !app_nil_r, stream_crypt_involutive.
  destruct (auth_tag_accepted aes_256_gcm None key1 iv1
              (stream_crypt aes_256_gcm key1 iv1 plain))
    as [Hc1 Hb1]; [by left|].
  rewrite Hc1. run. rewrite Hb1. run.
  by rewrite !concat_pair, !app_nil_r, stream_crypt_involutive.
Qed.

End dycrypt.

(** The stand-ins keep the promises of the library. *)
Lemma demo_laws : @NodeCryptoLaws demo_crypto.
Proof.
  split;
    cbv beta iota delta [scrypt_kdf auth_tag check_key_iv check_tag demo_crypto].
  - intros password salt keylen cost block par key [= <-].
    apply length_resize.
  - intros. apply length_resize.
  - intros alg key iv opt Hkey Hiv [-> | ->]; unfold demo_check_key_iv;
      by rewrite Hkey, Hiv.
  - intros alg opt tag [-> | ->] Htag; unfold demo_check_tag;
      by rewrite Htag.
Qed.

Section round_trip.
Context `{!NodeCrypto} `{!NodeCryptoLaws}.

(** What comes back is the plaintext as [utf-8] reads its own
    encoding. *)
Lemma decrypt_encrypt_text p data source trace source' trace' :
  let derive salt := scrypt_kdf (utf8_encode p) salt 32 16384 8 1 in
  match (encrypt data (mkRuntime (DyCrypt_new p) source trace)).1 with
  | Return ed =>
      (decrypt ed (mkRuntime (DyCrypt_new p) source' trace')).1
      = Return (utf8_decode (utf8_encode data))
  | Throw e =>
      derive (drawn_salt1 source) = Throw e
      ∨ derive (drawn_salt2 source) = Throw e
  end.
Proof.
  intros derive. pose proof (encrypt_outcome p data source trace) as Henc.
  destruct (encrypt data _).1 as [ed|e]; [|done].
  destruct Henc as (key1 & key2 & Hk1 & Hk2 & ->).
  apply decrypt_sealed; [apply randomBytes_length..|done|done].
Qed.

(** C1, as amended.  For every passphrase and every plaintext that is
    well-formed text (no unpaired surrogate), an [encrypt] call either
    fails with the error of scrypt or returns a result that [decrypt],
    on an object made with the same passphrase, turns back into the
    plaintext; the empty string is one such plaintext. *)
Theorem decrypt_encrypt_round_trip p data source trace source' trace' :
  isWellFormed data = true →
  match (encrypt data (mkRuntime (DyCrypt_new p) source trace)).1 with
  | Return ed =>
      (decrypt ed (mkRuntime (DyCrypt_new p) source' trace')).1
      = Return data
  | Throw e =>
      scrypt_kdf (utf8_encode p) (drawn_salt1 source) 32 16384 8 1 = Throw e
      ∨ scrypt_kdf (utf8_encode p) (drawn_salt2 source) 32 16384 8 1
        = Throw e
  end.
Proof.
  intros Hwf.
  pose proof (decrypt_encrypt_text p data source trace source' trace') as Hrt.
  cbv zeta in Hrt. destruct (encrypt data _).1 as [ed|e]; [|done].
  by rewrite utf8_decode_encode in Hrt.
Qed.

End round_trip.

Lemma decrypt_encrypt_round_trip_witness :
  isWellFormed demo_plaintext = true
  ∧ ∃ ed,
      (@encrypt demo_crypto demo_plaintext (demo_runtime demo_passphrase)).1
      = Return ed
      ∧ (@decrypt demo_crypto ed (demo_runtime demo_passphrase)).1
        = Return demo_plaintext.
Proof.
  split; [reflexivity|].
  pose proof (@decrypt_encrypt_round_trip demo_crypto demo_laws
                demo_passphrase demo_plaintext
                (counting_entropy 1) [] (counting_entropy 1) []
                eq_refl) as H.
  change (mkRuntime (DyCrypt_new demo_passphrase) (counting_entropy 1) [])
    with (demo_runtime demo_passphrase) in H.
  destruct (@encrypt demo_crypto demo_plaintext
              (demo_runtime demo_passphrase)).1 as [ed|e].
  - exists ed. split; [reflexivity | exact H].
  - destruct H as [H|H]; discriminate H.
Defined.

(** The empty plaintext. *)
Example decrypt_encrypt_empty :
  ∃ ed,
    (@encrypt demo_crypto [] (demo_runtime (js "p"))).1 = Return ed
    ∧ (@decrypt demo_crypto ed (demo_runtime (js "p"))).1 = Return [].
Proof. eexists. split; [vm_compute; reflexivity..]. Qed.

(** C1 as stated fails: a string that is one unpaired surrogate comes
    back as U+FFFD. *)
Lemma round_trip_fails_on_lone_surrogate :
  ∃ ed,
    (@encrypt demo_crypto [0xD800%N] (demo_runtime (js "p"))).1 = Return ed
    ∧ (@decrypt demo_crypto ed (demo_runtime (js "p"))).1
      = Return [0xFFFD%N]
    ∧ [0xFFFD%N] ≠ [0xD800%N].
Proof. eexists. split_and!; [vm_compute; reflexivity..|discriminate]. Qed.

(** ** The order of the layers in [decrypt] *)

Section decrypt_order.
Context `{!NodeCrypto}.


End decrypt_order.

(** ** Examples on the stand-ins *)

Example demo_result_is_encrypt :
  (@encrypt demo_crypto demo_plaintext (demo_runtime demo_passphrase)).1
  = Return demo_result.
Proof. vm_compute. reflexivity. Qed.

Example demo_result_decrypts :
  (@decrypt demo_crypto demo_result (demo_runtime demo_passphrase)).1
  = Return demo_plaintext.
Proof. vm_compute. reflexivity. Qed.


(** ** Failures of the tag check *)

Section decrypt_failure.
Context `{!NodeCrypto}.



End decrypt_failure.


(** Layer 2 rejects its tag with the same error. *)
Example decrypt_forged_authTag2 :
  (@decrypt demo_crypto forged_authTag2 (demo_runtime demo_passphrase)).1
  = (@decrypt demo_crypto forged_authTag1 (demo_runtime demo_passphrase)).1.
Proof. vm_compute. reflexivity. Qed.

(** So does a wrong passphrase. *)
Example decrypt_wrong_passphrase :
  (@decrypt demo_crypto demo_result (demo_runtime (js "wrong"))).1
  = Throw ERR_AUTH.
Proof. vm_compute. reflexivity. Qed.

(** ** The size of the container *)

Section container_length.
Context `{!NodeCrypto} `{!NodeCryptoLaws}.

Lemma pack_result_sealed stale salt1 salt2 iv1 iv2 key1 key2 plain :
  length salt1 = 16 → length salt2 = 16 →
  length iv1 = 12 → length iv2 = 12 →
  ∃ container,
    pack_result stale (sealed salt1 salt2 iv1 iv2 key1 key2 plain)
    = Return container
    ∧ length container = 88 + length plain.
Proof.
  intros Hs1 Hs2 Hi1 Hi2. unfold pack_result, sealed.
  cbn [EncryptedData.salt1 EncryptedData.salt2 EncryptedData.iv1
       EncryptedData.iv2 EncryptedData.authTag1 EncryptedData.authTag2
       EncryptedData.ciphertext].
  rewrite !base64_decode_encode. eexists. split.
  - apply packData_concat. by repeat split; try apply auth_tag_length.
  - rewrite !length_app, Hs1, Hs2, Hi1, Hi2, !auth_tag_length,
      !stream_crypt_length. lia.
Qed.

(** C8.  Either layer puts out as many bytes as it is given: what
    [update] and [final] return together has the length of the input,
    the tag being fetched apart.  So the ciphertext of [encrypt] has
    the length of the plaintext in bytes, and packing the result gives
    a container of 88 bytes more. *)
Theorem encrypt_container_length p data source trace stale :
  (∀ alg key iv authTagLength input rt,
     ∃ cipher out rest rt1 rt2,
       Cipher_update (mkCipheriv alg key iv authTagLength []) input rt
       = (Return (cipher, out), rt1)
       ∧ Cipher_final cipher rt1 = (Return (cipher, rest), rt2)
       ∧ length (Buffer.concat [out; rest]) = length input)
  ∧ match (encrypt data (mkRuntime (DyCrypt_new p) source trace)).1 with
    | Return ed =>
        length (base64_decode (EncryptedData.ciphertext ed))
        = length (utf8_encode data)
        ∧ ∃ container,
            pack_result stale ed = Return container
            ∧ length container = 88 + length (utf8_encode data)
    | Throw e =>
        scrypt_kdf (utf8_encode p) (drawn_salt1 source) 32 16384 8 1
        = Throw e
        ∨ scrypt_kdf (utf8_encode p) (drawn_salt2 source) 32 16384 8 1
          = Throw e
    end.
Proof.
  split.
  - intros alg key iv authTagLength input rt. eexists _, _, _, _, _.
    rewrite run_Cipher_update, run_Cipher_final. split_and!; [done..|].
    by rewrite concat_pair, app_nil_r, stream_crypt_length.
  - pose proof (encrypt_outcome p data source trace) as Henc.
    cbv zeta in Henc. destruct (encrypt data _).1 as [ed|e]; [|done].
    destruct Henc as (key1 & key2 & _ & _ & ->). split.
    + unfold sealed. cbn [EncryptedData.ciphertext].
      by rewrite base64_decode_encode, !stream_crypt_length.
    + apply pack_result_sealed; apply randomBytes_length.
Qed.

(** The file written from a result is read back as that result. *)
Lemma unpack_pack_result stale salt1 salt2 iv1 iv2 key1 key2 plain :
  length salt1 = 16 → length salt2 = 16 →
  length iv1 = 12 → length iv2 = 12 →
  let ed := sealed salt1 salt2 iv1 iv2 key1 key2 plain in
  ∃ container u,
    pack_result stale ed = Return container
    ∧ unpackData container = Return u
    ∧ unpacked_result u = ed.
Proof.
  intros Hs1 Hs2 Hi1 Hi2 ed. subst ed. unfold pack_result, sealed.
  cbn [EncryptedData.salt1 EncryptedData.salt2 EncryptedData.iv1
       EncryptedData.iv2 EncryptedData.authTag1 EncryptedData.authTag2
       EncryptedData.ciphertext].
  rewrite !base64_decode_encode.
  assert (valid_lengths salt1 salt2 iv1 iv2
            (auth_tag aes_256_gcm key1 iv1
               (stream_crypt aes_256_gcm key1 iv1 plain))
            (auth_tag chacha20_poly1305 key2 iv2
               (stream_crypt chacha20_poly1305 key2 iv2
                  (stream_crypt aes_256_gcm key1 iv1 plain)))) as Hvalid
    by (by repeat split; try apply auth_tag_length).
  eexists _, _. split; [by apply packData_concat|].
  split; [by apply unpackData_concat|done].
Qed.

(** X15.  The pipeline of the command line example and of the demo:
    encrypt, turn the result into a container with [packData], take the
    container apart with [unpackData], turn the fields into base64 and
    decrypt.  Well-formed text comes back; the only failure is that of
    scrypt during [encrypt]. *)
Lemma decrypt_file_round_trip p data source trace source' trace' stale :
  isWellFormed data = true →
  match (encrypt data (mkRuntime (DyCrypt_new p) source trace)).1 with
  | Return ed =>
      ∃ container u,
        pack_result stale ed = Return container
        ∧ unpackData container = Return u
        ∧ (decrypt (unpacked_result u)
             (mkRuntime (DyCrypt_new p) source' trace')).1
          = Return data
  | Throw e =>
      scrypt_kdf (utf8_encode p) (drawn_salt1 source) 32 16384 8 1 = Throw e
      ∨ scrypt_kdf (utf8_encode p) (drawn_salt2 source) 32 16384 8 1
        = Throw e
  end.
Proof.
  intros Hwf. pose proof (encrypt_outcome p data source trace) as Henc.
  cbv zeta in Henc. destruct (encrypt data _).1 as [ed|e]; [|done].
  destruct Henc as (key1 & key2 & Hk1 & Hk2 & ->).
  edestruct (unpack_pack_result stale) as (container & u & Hpack & Hun & Hu);
    [apply randomBytes_length..|].
  exists container, u. split; [exact Hpack|]. split; [exact Hun|].
  rewrite Hu, decrypt_sealed; [|apply randomBytes_length..|done|done].
  by rewrite utf8_decode_encode.
Qed.

End container_length.

(** The scenario of the design document: 14 bytes of plaintext, 102
    bytes of container. *)
Lemma encrypt_container_length_witness :
  ∃ ed container,
    (@encrypt demo_crypto demo_plaintext (demo_runtime demo_passphrase)).1
    = Return ed
    ∧ pack_result sample_stale ed = Return container
    ∧ length container = 102.
Proof.
  destruct (@encrypt_container_length demo_crypto demo_laws demo_passphrase
              demo_plaintext (counting_entropy 1) [] sample_stale)
    as [_ H].
  change (mkRuntime (DyCrypt_new demo_passphrase) (counting_entropy 1) [])
    with (demo_runtime demo_passphrase) in H.
  destruct (@encrypt demo_crypto demo_plaintext
              (demo_runtime demo_passphrase)).1 as [ed|e].
  - destruct H as (_ & container & Hpack & Hlen).
    exists ed, container. split; [reflexivity|]. split; [exact Hpack|].
    exact Hlen.
  - destruct H as [H|H]; discriminate H.
Defined.

(** ** The passphrase *)

Create HintDb keeps discriminated.

Lemma keeps_this_bind {A B} (m : M A) (f : A → M B) :
  keeps_this m → (∀ a, keeps_this (f a)) → keeps_this (m ≫= f).
Proof.
  intros Hm Hf rt. rewrite run_bind. specialize (Hm rt).
  destruct (m rt) as [[a|e] rt1]; simpl in *; [|done].
  by rewrite Hf.
Qed.

Lemma keeps_this_ret {A} (a : A) : keeps_this (mret a : M A).
Proof. done. Qed.

Lemma keeps_this_throw {A} e : keeps_this (@throw A e).
Proof. done. Qed.

Lemma keeps_this_lift {A} (c : completion A) : keeps_this (lift c).
Proof. done. Qed.

Lemma keeps_this_get_this : keeps_this get_this.
Proof. done. Qed.

Lemma keeps_this_log ev : keeps_this (log ev).
Proof. done. Qed.

Lemma keeps_this_randomBytes size : keeps_this (crypto_randomBytes size).
Proof. done. Qed.

Global Hint Resolve keeps_this_ret keeps_this_throw keeps_this_lift
  keeps_this_get_this keeps_this_log keeps_this_randomBytes : keeps.

(** Take a method apart, bind by bind and branch by branch. *)
Ltac keeps :=
  repeat first
    [ apply keeps_this_bind; [|intros]
    | match goal with
      | |- keeps_this (match ?x with _ => _ end) => destruct x
      | |- keeps_this (if ?x then _ else _) => destruct x
      end
    | solve [auto with keeps] ].

Section passphrase.
Context `{!NodeCrypto}.

Lemma keeps_this_encrypt data : keeps_this (encrypt data).
Proof.
  unfold encrypt, _deriveKey, crypto_scrypt, crypto_createCipheriv,
    Cipher_update, Cipher_final, Cipher_getAuthTag.
  keeps.
Qed.

Lemma keeps_this_decrypt encryptedData : keeps_this (decrypt encryptedData).
Proof.
  unfold decrypt, _deriveKey, crypto_scrypt, crypto_createDecipheriv,
    Decipher_setAuthTag, Decipher_update, Decipher_final.
  keeps.
Qed.

(** C9, as amended.  The passphrase is given once, to the constructor,
    which keeps its [utf-8] bytes in the object.  [encrypt] and
    [decrypt] take no passphrase: they read that field when they derive
    a key, and whether they return or throw they leave the object as it
    was, so the passphrase is still held after every call. *)
Theorem passphrase_held_by_object p data encryptedData rt :
  masterPassword (DyCrypt_new p) = utf8_encode p
  ∧ this (encrypt data rt).2 = this rt
  ∧ this (decrypt encryptedData rt).2 = this rt
  ∧ (∀ salt, ∃ key,
       _deriveKey salt rt = (key, logged (EvScrypt (masterPassword (this rt)) salt) rt)).
Proof.
  split_and!; [done|apply keeps_this_encrypt|apply keeps_this_decrypt|].
  intros salt. eexists. apply run_deriveKey.
Qed.

End passphrase.

(** C9 as stated fails: after [encrypt] has returned, and after [decrypt]
    has, the object still holds the bytes of the passphrase. *)
Lemma passphrase_retained_after_call :
  let rt := demo_runtime demo_passphrase in
  (@encrypt demo_crypto demo_plaintext rt).1 = Return demo_result
  ∧ masterPassword (this (@encrypt demo_crypto demo_plaintext rt).2)
    = utf8_encode demo_passphrase
  ∧ (@decrypt demo_crypto demo_result rt).1 = Return demo_plaintext
  ∧ masterPassword (this (@decrypt demo_crypto demo_result rt).2)
    = utf8_encode demo_passphrase
  ∧ utf8_encode demo_passphrase ≠ [].
Proof. split_and!; [vm_compute; reflexivity..|discriminate]. Qed.

(** * More of the code: edge cases, failures and compositions *)

(** ** The container read and written again *)

(** X1.  Any buffer of at least 88 bytes is a container: what
    [unpackData] cuts it into, [packData] puts together again as the very
    same buffer, also when every field goes through base64 in between as
    it does in the command line example. *)
Theorem packData_unpackData stale buffer :
  88 ≤ length buffer →
  ∃ u,
    unpackData buffer = Return u
    ∧ packData stale (UnpackedData.salt1 u) (UnpackedData.salt2 u)
        (UnpackedData.iv1 u) (UnpackedData.iv2 u)
        (UnpackedData.authTag1 u) (UnpackedData.authTag2 u)
        (UnpackedData.encryptedData u)
      = Return buffer
    ∧ pack_result stale (unpacked_result u) = Return buffer.
Proof.
  intros Hle. eexists. split; [by apply unpackData_long|].
  destruct (unpackData_cut buffer Hle) as [Hcut Hvalid]. cbv zeta in *.
  unfold pack_result, unpacked_result.
  cbn [UnpackedData.salt1 UnpackedData.salt2 UnpackedData.iv1
       UnpackedData.iv2 UnpackedData.authTag1 UnpackedData.authTag2
       UnpackedData.encryptedData EncryptedData.salt1 EncryptedData.salt2
       EncryptedData.iv1 EncryptedData.iv2 EncryptedData.authTag1
       EncryptedData.authTag2 EncryptedData.ciphertext].
  rewrite !base64_decode_encode, packData_concat by done.
  by rewrite <- Hcut.
Qed.

Lemma packData_unpackData_witness :
  88 ≤ length (replicate 88 x2a ++ sample_payload)
  ∧ ∃ u,
      unpackData (replicate 88 x2a ++ sample_payload) = Return u
      ∧ pack_result sample_stale (unpacked_result u)
        = Return (replicate 88 x2a ++ sample_payload).
Proof.
  split; [simpl; lia|].
  destruct (packData_unpackData sample_stale
              (replicate 88 x2a ++ sample_payload) ltac:(simpl; lia))
    as (u & Hu & _ & Hpack).
  exists u. split; [exact Hu | exact Hpack].
Defined.

(** X2.  The container is unambiguous: two calls of [packData] that
    return the same buffer were given the same seven fields. *)
Theorem packData_injective stale stale' packed
    salt1 salt2 iv1 iv2 authTag1 authTag2 encryptedData
    salt1' salt2' iv1' iv2' authTag1' authTag2' encryptedData' :
  packData stale salt1 salt2 iv1 iv2 authTag1 authTag2 encryptedData
  = Return packed →
  packData stale' salt1' salt2' iv1' iv2' authTag1' authTag2' encryptedData'
  = Return packed →
  salt1 = salt1' ∧ salt2 = salt2' ∧ iv1 = iv1' ∧ iv2 = iv2'
  ∧ authTag1 = authTag1' ∧ authTag2 = authTag2'
  ∧ encryptedData = encryptedData'.
Proof.
  intros Hpack Hpack'.
  pose proof (packData_Return_valid _ _ _ _ _ _ _ _ _ Hpack) as Hvalid.
  pose proof (packData_Return_valid _ _ _ _ _ _ _ _ _ Hpack') as Hvalid'.
  rewrite packData_concat in Hpack by done.
  rewrite packData_concat in Hpack' by done.
  injection Hpack as <-. injection Hpack' as Heq.
  pose proof (unpackData_concat _ _ _ _ _ _ encryptedData Hvalid) as Hun.
  rewrite <- Heq, unpackData_concat in Hun by done.
  by injection Hun as -> -> -> -> -> -> ->.
Qed.

Lemma packData_injective_witness :
  ∃ packed,
    packData sample_stale sample_salt1 sample_salt2 sample_iv1 sample_iv2
      sample_tag1 sample_tag2 sample_payload = Return packed
    ∧ packData (λ _, x00) sample_salt1 sample_salt2 sample_iv1 sample_iv2
        sample_tag1 sample_tag2 sample_payload = Return packed
    ∧ sample_salt1 = sample_salt1 ∧ sample_salt2 = sample_salt2
    ∧ sample_iv1 = sample_iv1 ∧ sample_iv2 = sample_iv2
    ∧ sample_tag1 = sample_tag1 ∧ sample_tag2 = sample_tag2
    ∧ sample_payload = sample_payload.
Proof.
  eexists. split; [vm_compute; reflexivity|].
  split; [vm_compute; reflexivity|].
  eapply (packData_injective sample_stale (λ _, x00) _
            sample_salt1 sample_salt2 sample_iv1 sample_iv2 sample_tag1
            sample_tag2 sample_payload
            sample_salt1 sample_salt2 sample_iv1 sample_iv2 sample_tag1
            sample_tag2 sample_payload); vm_compute; reflexivity.
Defined.

(** X3.  The container has no length field and no end marker.  Bytes
    appended to a container are read by [unpackData] as more payload; a
    container cut off inside its payload is read as a container with a
    shorter payload and the same header; one cut off inside its header
    is refused with the message about the 88 bytes. *)
Theorem unpackData_payload_unframed stale salt1 salt2 iv1 iv2 authTag1
    authTag2 encryptedData packed more k :
  packData stale salt1 salt2 iv1 iv2 authTag1 authTag2 encryptedData
  = Return packed →
  unpackData (packed ++ more)
  = Return (UnpackedData.mk salt1 salt2 iv1 iv2 authTag1 authTag2
              (encryptedData ++ more))
  ∧ (88 ≤ k →
     unpackData (take k packed)
     = Return (UnpackedData.mk salt1 salt2 iv1 iv2 authTag1 authTag2
                 (take (k - 88) encryptedData)))
  ∧ (k < 88 →
     unpackData (take k packed)
     = Throw (Error (corrupted_file_message 88 k))).
Proof.
  intros Hpack.
  pose proof (packData_Return_valid _ _ _ _ _ _ _ _ _ Hpack) as Hvalid.
  rewrite packData_concat in Hpack by done. injection Hpack as <-.
  split_and!.
  - rewrite <- !(assoc_L (++)). by apply unpackData_concat.
  - intros Hk. rewrite <- (unpackData_concat _ _ _ _ _ _ _ Hvalid).
    f_equal. destruct Hvalid as (H1 & H2 & H3 & H4 & H5 & H6).
    rewrite !(assoc_L (++)), take_app_ge by field_lengths.
    do 2 f_equal. field_lengths.
  - intros Hk.
    destruct (container_fields _ _ _ _ _ _ encryptedData Hvalid)
      as (Hlen & _).
    cbv zeta in Hlen.
    rewrite unpackData_short; rewrite length_take, Hlen;
      [do 3 f_equal|]; lia.
Qed.

Lemma unpackData_payload_unframed_witness :
  ∃ packed,
    packData sample_stale sample_salt1 sample_salt2 sample_iv1 sample_iv2
      sample_tag1 sample_tag2 sample_payload = Return packed
    ∧ unpackData (take 89 packed)
      = Return (UnpackedData.mk sample_salt1 sample_salt2 sample_iv1
                  sample_iv2 sample_tag1 sample_tag2 [xca]).
Proof.
  eexists. split; [vm_compute; reflexivity|].
  refine (proj1 (proj2 (unpackData_payload_unframed sample_stale sample_salt1
            sample_salt2 sample_iv1 sample_iv2 sample_tag1 sample_tag2
            sample_payload _ [] 89 _)) _); [vm_compute; reflexivity|lia].
Defined.

(** ** The calls of [encrypt] *)

Section encrypt_calls.
Context `{!NodeCrypto}.

(** X4.  An [encrypt] call that returns has drawn 56 bytes from the random
    source, each used once: bytes [0,16) are [salt1], [16,28) are [iv1],
    [28,44) are [salt2] and [44,56) are [iv2] of the result, and the next
    call finds the source at byte 56. *)
Theorem encrypt_draws_fresh_bytes p data source trace ed rt' :
  encrypt data (mkRuntime (DyCrypt_new p) source trace) = (Return ed, rt') →
  base64_decode (EncryptedData.salt1 ed) = source <$> seq 0 16
  ∧ base64_decode (EncryptedData.iv1 ed) = source <$> seq 16 12
  ∧ base64_decode (EncryptedData.salt2 ed) = source <$> seq 28 16
  ∧ base64_decode (EncryptedData.iv2 ed) = source <$> seq 44 12
  ∧ ∀ i, entropy rt' i = source (56 + i).
Proof.
  unfold encrypt. run.
  destruct (scrypt_kdf _ _ _ _ _ _) as [key1|?]; run; [|done].
  destruct (check_key_iv aes_256_gcm _ _ _); run; [done|].
  destruct (scrypt_kdf _ _ _ _ _ _) as [key2|?]; run; [|done].
  destruct (check_key_iv chacha20_poly1305 _ _ _); run; [done|].
  intros [<- <-]%returned.
  cbn [EncryptedData.salt1 EncryptedData.salt2 EncryptedData.iv1
       EncryptedData.iv2 entropy logged].
  rewrite !base64_decode_encode.
  split_and!; [done|apply (drawn_from source 16)
               |apply (drawn_from source 28)|apply (drawn_from source 44)
               |done].
Qed.

(** X6.  When scrypt fails, [encrypt] fails with scrypt's error and
    stops at once.  A failure for [salt1] comes after two calls, before
    any cipher exists; a failure for [salt2] comes after layer 1 is
    complete, and nothing of it is handed out. *)
Theorem encrypt_scrypt_failure p data source trace e :
  let password := utf8_encode p in
  let derive salt := scrypt_kdf password salt 32 16384 8 1 in
  let rt := mkRuntime (DyCrypt_new p) source trace in
  (derive (drawn_salt1 source) = Throw e →
   (encrypt data rt).1 = Throw e
   ∧ calls (encrypt data rt).2
     = trace ++ [ EvRandomBytes 16; EvScrypt password (drawn_salt1 source) ])
  ∧ (∀ key1,
       derive (drawn_salt1 source) = Return key1 →
       check_key_iv aes_256_gcm key1 (drawn_iv1 source) None = None →
       derive (drawn_salt2 source) = Throw e →
       (encrypt data rt).1 = Throw e
       ∧ calls (encrypt data rt).2
         = trace
           ++ [ EvRandomBytes 16; EvScrypt password (drawn_salt1 source);
                EvRandomBytes 12;
                EvCreateCipheriv aes_256_gcm key1 (drawn_iv1 source);
                EvCipherUpdate aes_256_gcm (utf8_encode data);
                EvCipherFinal aes_256_gcm; EvGetAuthTag aes_256_gcm;
                EvRandomBytes 16; EvScrypt password (drawn_salt2 source) ]).
Proof.
  intros password derive rt. subst password derive rt. split.
  - intros Hk1. unfold encrypt. run. fold (drawn_salt1 source).
    rewrite Hk1. run. split; [done|].
    unfold logged. cbn [snd calls]. by rewrite <- !(assoc_L (++)).
  - intros key1 Hk1 Hiv1 Hk2. unfold encrypt. run.
    fold (drawn_salt1 source). rewrite Hk1. run.
    fold (drawn_iv1 source). rewrite Hiv1. run.
    fold (drawn_salt2 source). rewrite Hk2. run. split; [done|].
    unfold logged. cbn [snd calls]. by rewrite <- !(assoc_L (++)).
Qed.

End encrypt_calls.

Lemma encrypt_draws_fresh_bytes_witness :
  ∃ ed rt',
    @encrypt demo_crypto demo_plaintext (demo_runtime demo_passphrase)
    = (Return ed, rt')
    ∧ base64_decode (EncryptedData.salt2 ed) = counting_entropy 1 <$> seq 28 16
    ∧ entropy rt' 0 = x39.
Proof.
  eexists _, _. split; [vm_compute; reflexivity|].
  edestruct (@encrypt_draws_fresh_bytes demo_crypto demo_passphrase
               demo_plaintext (counting_entropy 1) [])
    as (_ & _ & Hsalt2 & _ & Hnext); [vm_compute; reflexivity|].
  split; [exact Hsalt2|]. rewrite Hnext. reflexivity.
Defined.

Lemma encrypt_scrypt_failure_witness :
  (@encrypt (refusing_crypto x01) demo_plaintext
     (demo_runtime demo_passphrase)).1 = Throw (Error "scrypt failed")
  ∧ length (calls (@encrypt (refusing_crypto x01) demo_plaintext
                     (demo_runtime demo_passphrase)).2) = 2
  ∧ (@encrypt (refusing_crypto x1d) demo_plaintext
       (demo_runtime demo_passphrase)).1 = Throw (Error "scrypt failed")
  ∧ length (calls (@encrypt (refusing_crypto x1d) demo_plaintext
                     (demo_runtime demo_passphrase)).2) = 9.
Proof.
  destruct (@encrypt_scrypt_failure (refusing_crypto x01) demo_passphrase
              demo_plaintext (counting_entropy 1) [] (Error "scrypt failed"))
    as [Hfirst _].
  destruct (@encrypt_scrypt_failure (refusing_crypto x1d) demo_passphrase
              demo_plaintext (counting_entropy 1) [] (Error "scrypt failed"))
    as [_ Hsecond].
  destruct Hfirst as [H1 H2]; [vm_compute; reflexivity|].
  edestruct Hsecond as [H3 H4]; [vm_compute; reflexivity..|].
  unfold demo_runtime. rewrite H1, H2, H3, H4. repeat split.
Defined.

Lemma encrypt_inner_layer_first_witness :
  ∃ made,
    calls (@encrypt demo_crypto demo_plaintext
             (demo_runtime demo_passphrase)).2 = made
    ∧ length made = 14
    ∧ made !! 6 = Some (EvGetAuthTag aes_256_gcm)
    ∧ made !! 7 = Some (EvRandomBytes 16).
Proof.
  eexists. split.
  - unfold demo_runtime.
    apply (@encrypt_inner_layer_first demo_crypto demo_laws demo_passphrase
             demo_plaintext (counting_entropy 1) []); reflexivity.
  - repeat split.
Defined.

(** ** The calls of [decrypt] *)

Section decrypt_calls.
Context `{!NodeCrypto}.

(** X7.  [decrypt] uses no randomness: whatever it is given, it leaves
    the random source where it was and none of the calls it makes is
    [randomBytes]; its outcome is the same for every state of the source
    and every history of calls. *)
Theorem decrypt_draws_no_random_bytes encryptedData object source trace
    source' trace' :
  (decrypt encryptedData (mkRuntime object source trace)).1
  = (decrypt encryptedData (mkRuntime object source' trace')).1
  ∧ entropy (decrypt encryptedData (mkRuntime object source trace)).2 = source
  ∧ ∃ made,
      calls (decrypt encryptedData (mkRuntime object source trace)).2
      = trace ++ made
      ∧ ∀ size, EvRandomBytes size ∉ made.
Proof.
  unfold decrypt. run.
  destruct (scrypt_kdf _ _ _ _ _ _) as [key2|?]; run;
    [destruct (check_key_iv chacha20_poly1305 _ _ _); run;
     [|destruct (check_tag chacha20_poly1305 _ _); run;
       [|destruct (buffer_eqb _ _); run;
         [destruct (scrypt_kdf _ _ _ _ _ _) as [key1|?]; run;
          [destruct (check_key_iv aes_256_gcm _ _ _); run;
           [|destruct (check_tag aes_256_gcm _ _); run;
             [|destruct (buffer_eqb _ _); run]]|]|]]]|];
    (split; [done|]); (split; [done|]);
    (eexists; split; [made_calls|]);
    intros size; rewrite ?not_elem_of_cons; split_and?; try done;
    apply not_elem_of_nil.
Qed.




End decrypt_calls.




(** ** Results, files and text under the promises of the library *)

Section results_and_files.
Context `{!NodeCrypto} `{!NodeCryptoLaws}.


(** X12.  What the command line example can report for a file.  A file
    of fewer than 88 bytes fails in [unpackData]; for any other file the
    fields have the sizes the ciphers ask for, so [decrypt] either
    returns a text or fails with the error of [decipher.final()] or with
    that of scrypt. *)
Theorem decrypt_file_outcome p buffer source trace :
  match unpackData buffer with
  | Throw e =>
      length buffer < 88
      ∧ e = Error (corrupted_file_message 88 (length buffer))
  | Return u =>
      88 ≤ length buffer
      ∧ match (decrypt (unpacked_result u)
                 (mkRuntime (DyCrypt_new p) source trace)).1 with
        | Return _ => True
        | Throw e =>
            e = ERR_AUTH
            ∨ ∃ salt, scrypt_kdf (utf8_encode p) salt 32 16384 8 1 = Throw e
        end
  end.
Proof.
  destruct (Nat.lt_ge_cases (length buffer) 88) as [Hlt|Hle];
    [by rewrite unpackData_short|].
  rewrite unpackData_long by done. split; [done|].
  destruct (unpackData_cut buffer Hle) as [_ Hvalid]. cbv zeta in Hvalid.
  destruct Hvalid as (H1 & H2 & H3 & H4 & H5 & H6).
  unfold decrypt, unpacked_result.
  cbn [UnpackedData.salt1 UnpackedData.salt2 UnpackedData.iv1
       UnpackedData.iv2 UnpackedData.authTag1 UnpackedData.authTag2
       UnpackedData.encryptedData EncryptedData.salt1 EncryptedData.salt2
       EncryptedData.iv1 EncryptedData.iv2 EncryptedData.authTag1
       EncryptedData.authTag2 EncryptedData.ciphertext].
  rewrite !base64_decode_encode. run.
  destruct (scrypt_kdf _ (Buffer.subarray buffer 16 32) _ _ _ _)
    as [key2|?] eqn:Hk2; run; [|right; eauto].
  rewrite check_key_iv_ok
    by (first [by eapply scrypt_kdf_length | done | by right]).
  run. rewrite check_tag_ok by (first [done | by right]). run.
  destruct (buffer_eqb _ _); run; [|by left].
  destruct (scrypt_kdf _ (Buffer.subarray buffer 0 16) _ _ _ _)
    as [key1|?] eqn:Hk1; run; [|right; eauto].
  rewrite check_key_iv_ok
    by (first [by eapply scrypt_kdf_length | done | by left]).
  run. rewrite check_tag_ok by (first [done | by left]). run.
  destruct (buffer_eqb _ _); run; [done|by left].
Qed.

(** X16.  The object rebuilt from the file is the object [encrypt]
    returned: [packData] accepts every result, and [unpackData] followed
    by base64 gives every field back character for character. *)
Theorem encrypt_result_read_back p data source trace stale :
  match (encrypt data (mkRuntime (DyCrypt_new p) source trace)).1 with
  | Return ed =>
      ∃ container u,
        pack_result stale ed = Return container
        ∧ unpackData container = Return u
        ∧ unpacked_result u = ed
  | Throw _ => True
  end.
Proof.
  pose proof (encrypt_outcome p data source trace) as Henc.
  cbv zeta in Henc. destruct (encrypt data _).1 as [ed|e]; [|done].
  destruct Henc as (key1 & key2 & _ & _ & ->).
  apply unpack_pack_result; apply randomBytes_length.
Qed.

(** X14.  For every plaintext of 16-bit code units, what [decrypt]
    returns for a result of [encrypt] is the plaintext with every
    unpaired surrogate replaced by U+FFFD. *)
Theorem decrypt_encrypt_toWellFormed p data source trace source' trace' :
  Forall (λ u, (u < 0x10000)%N) data →
  match (encrypt data (mkRuntime (DyCrypt_new p) source trace)).1 with
  | Return ed =>
      (decrypt ed (mkRuntime (DyCrypt_new p) source' trace')).1
      = Return (toWellFormed data)
  | Throw _ => True
  end.
Proof.
  intros Hunits.
  pose proof (decrypt_encrypt_text p data source trace source' trace') as Hrt.
  cbv zeta in Hrt. destruct (encrypt data _).1 as [ed|e]; [|done].
  by rewrite utf8_decode_encode_any in Hrt.
Qed.

End results_and_files.


Lemma decrypt_file_outcome_witness :
  ∃ u,
    unpackData (replicate 90 x00) = Return u
    ∧ (@decrypt demo_crypto (unpacked_result u)
         (demo_runtime demo_passphrase)).1 = Throw ERR_AUTH.
Proof.
  eexists. split; [vm_compute; reflexivity|].
  pose proof (@decrypt_file_outcome demo_crypto demo_laws demo_passphrase
                (replicate 90 x00) (counting_entropy 1) []) as H.
  rewrite unpackData_long in H by (simpl; lia). destruct H as [_ H].
  unfold demo_runtime.
  destruct (@decrypt demo_crypto _ _).1 as [text|e] eqn:Hrun;
    [vm_compute in Hrun; discriminate Hrun|].
  destruct H as [->|[salt Hs]]; [reflexivity | discriminate Hs].
Defined.

Lemma encrypt_result_read_back_witness :
  ∃ container u,
    pack_result sample_stale demo_result = Return container
    ∧ unpackData container = Return u
    ∧ unpacked_result u = demo_result.
Proof.
  pose proof (@encrypt_result_read_back demo_crypto demo_laws demo_passphrase
                demo_plaintext (counting_entropy 1) [] sample_stale) as H.
  change (mkRuntime (DyCrypt_new demo_passphrase) (counting_entropy 1) [])
    with (demo_runtime demo_passphrase) in H.
  rewrite demo_result_is_encrypt in H. exact H.
Defined.

Lemma decrypt_encrypt_toWellFormed_witness :
  Forall (λ u, (u < 0x10000)%N) [0x61%N; 0xD800%N; 0x62%N]
  ∧ ∃ ed,
      (@encrypt demo_crypto [0x61%N; 0xD800%N; 0x62%N]
         (demo_runtime demo_passphrase)).1 = Return ed
      ∧ (@decrypt demo_crypto ed (demo_runtime demo_passphrase)).1
        = Return [0x61%N; 0xFFFD%N; 0x62%N].
Proof.
  assert (Forall (λ u, (u < 0x10000)%N) [0x61%N; 0xD800%N; 0x62%N])
    as Hunits by (repeat constructor).
  split; [exact Hunits|].
  pose proof (@decrypt_encrypt_toWellFormed demo_crypto demo_laws
                demo_passphrase [0x61%N; 0xD800%N; 0x62%N]
                (counting_entropy 1) [] (counting_entropy 1) [] Hunits) as H.
  change (mkRuntime (DyCrypt_new demo_passphrase) (counting_entropy 1) [])
    with (demo_runtime demo_passphrase) in H.
  destruct (@encrypt demo_crypto _ (demo_runtime demo_passphrase)).1
    as [ed|e] eqn:Hrun.
  - exists ed. split; [reflexivity | exact H].
  - vm_compute in Hrun. discriminate Hrun.
Defined.

Lemma decrypt_file_round_trip_witness :
  isWellFormed demo_plaintext = true
  ∧ ∃ container u,
      pack_result sample_stale demo_result = Return container
      ∧ unpackData container = Return u
      ∧ (@decrypt demo_crypto (unpacked_result u)
           (demo_runtime demo_passphrase)).1 = Return demo_plaintext.
Proof.
  split; [reflexivity|].
  pose proof (@decrypt_file_round_trip demo_crypto demo_laws demo_passphrase
                demo_plaintext (counting_entropy 1) [] (counting_entropy 1)
                [] sample_stale eq_refl) as H.
  change (mkRuntime (DyCrypt_new demo_passphrase) (counting_entropy 1) [])
    with (demo_runtime demo_passphrase) in H.
  rewrite demo_result_is_encrypt in H. exact H.
Defined.

(** ** Passphrases as text *)

(** X13.  The constructor keeps the UTF-8 bytes of the passphrase, so two
    passphrases make the same object exactly when they are equal once
    every unpaired surrogate is replaced by U+FFFD: different well-formed
    passphrases are kept apart, passphrases that differ only in unpaired
    surrogates are not. *)
Theorem DyCrypt_new_same_object_iff p p' :
  Forall (λ u, (u < 0x10000)%N) p → Forall (λ u, (u < 0x10000)%N) p' →
  DyCrypt_new p = DyCrypt_new p' ↔ toWellFormed p = toWellFormed p'.
Proof.
  intros Hp Hp'. split.
  - intros Hnew.
    apply (f_equal (λ object, utf8_decode (masterPassword object))) in Hnew.
    cbn [DyCrypt_new masterPassword] in Hnew.
    by rewrite !utf8_decode_encode_any in Hnew.
  - intros Hwf. unfold DyCrypt_new. f_equal.
    by rewrite <- (utf8_encode_toWellFormed p), Hwf, utf8_encode_toWellFormed.
Qed.

Lemma DyCrypt_new_same_object_iff_witness :
  DyCrypt_new [0xDC00%N; 0x61%N] = DyCrypt_new [0xFFFD%N; 0x61%N]
  ∧ DyCrypt_new (js "Staple") ≠ DyCrypt_new (js "staple").
Proof.
  split.
  - apply (proj2 (DyCrypt_new_same_object_iff [0xDC00%N; 0x61%N]
                    [0xFFFD%N; 0x61%N] ltac:(repeat constructor)
                    ltac:(repeat constructor))).
    reflexivity.
  - intros Hnew.
    apply (proj1 (DyCrypt_new_same_object_iff (js "Staple") (js "staple")
                    ltac:(repeat constructor) ltac:(repeat constructor)))
      in Hnew.
    discriminate Hnew.
Defined.
